(** * StructuraLens: the local geometry editor

    A shallow embedding of [updateDimension] and [updateLoad], the two
    state-editing closures of the [App] component, together with the data
    model of [types.ts].

    Numbers are JavaScript Numbers, that is IEEE 754 binary64 values; they
    are modelled by Rocq's primitive [float], which is the same format with
    the same round-to-nearest-even arithmetic.  Leibniz equality on [float]
    separates [+0] from [-0] and identifies all NaNs, which is what an
    observer of a JavaScript value can tell apart. *)

From Stdlib Require Import Floats ZArith Lia Bool.
From stdpp Require Import base list strings.

(** ** JavaScript number operators *)

Module JS.

(** [x >= y] on Numbers: IEEE comparison, false as soon as one side is NaN. *)
Definition geb (x y : float) : bool := (y <=? x)%float.

(** [Object.is(x, +0)] and [Object.is(x, -0)]. *)
Definition is_pos_zero (x : float) : bool := PrimFloat.Leibniz.eqb x zero.
Definition is_neg_zero (x : float) : bool := PrimFloat.Leibniz.eqb x neg_zero.

(** The loop of ECMAScript's [Math.max] over the already coerced
    arguments, [highest] being the running result. *)
Fixpoint Math_max_loop (highest : float) (coerced : list float) : float :=
  match coerced with
  | [] => highest
  | number :: rest =>
      if is_nan number then nan
      else if is_pos_zero number && is_neg_zero highest
           then Math_max_loop number rest
      else if (highest <? number)%float then Math_max_loop number rest
      else Math_max_loop highest rest
  end.

(** [Math.max(...coerced)]: the loop started at [-Infinity]. *)
Definition Math_max (coerced : list float) : float :=
  Math_max_loop neg_infinity coerced.

(** [Array.prototype.findIndex]; [None] stands for the result [-1]. *)
Fixpoint findIndex {A : Type} (p : A -> bool) (l : list A) : option nat :=
  match l with
  | [] => None
  | x :: rest => if p x then Some 0 else S <$> findIndex p rest
  end.

End JS.

Notation "x >=? y" := (JS.geb x y) (at level 70, no associativity) : float_scope.

(** The Number denoted by the literal [0.001]: the binary64 value nearest to
    one thousandth. *)
Definition tolerance : float := 0x1.0624dd2f1a9fcp-10%float.

(** ** Data model (types.ts) *)

Inductive SupportType := FIXED | PIN | ROLLER | FREE | HINGE.
Inductive LoadType := DISTRIBUTED | POINT | MOMENT.
Inductive Direction := UP | DOWN | CLOCKWISE | COUNTER_CLOCKWISE.

Module BeamNode.
Record t := mk {
  id : string;
  label : string;
  position : float;
  supportType : option SupportType;
  hasHinge : option bool
}.
End BeamNode.

Module BeamLoad.
(** [type_] and [end_] stand for the fields [type] and [end]. *)
Record t := mk {
  id : string;
  type_ : LoadType;
  start : float;
  end_ : float;
  magnitude : float;
  unit : string;
  symbol : string;
  direction : Direction
}.

(** [keyof BeamLoad]. *)
Inductive key :=
  k_id | k_type | k_start | k_end | k_magnitude | k_unit | k_symbol | k_direction.

(** The declared type of each field.  [updateLoad] takes its value as
    [any]; the embedding keeps the structure well typed and lets the value
    range over the type of the field it is written to. *)
Definition field (k : key) : Type :=
  match k with
  | k_id | k_unit | k_symbol => string
  | k_type => LoadType
  | k_start | k_end | k_magnitude => float
  | k_direction => Direction
  end.

Definition get (k : key) (l : t) : field k :=
  match k with
  | k_id => id l
  | k_type => type_ l
  | k_start => start l
  | k_end => end_ l
  | k_magnitude => magnitude l
  | k_unit => unit l
  | k_symbol => symbol l
  | k_direction => direction l
  end.

(** The object spread [{ ...l, [k]: v }]. *)
Definition set (k : key) : field k -> t -> t :=
  match k with
  | k_id => fun v l =>
      mk v (type_ l) (start l) (end_ l) (magnitude l) (unit l) (symbol l) (direction l)
  | k_type => fun v l =>
      mk (id l) v (start l) (end_ l) (magnitude l) (unit l) (symbol l) (direction l)
  | k_start => fun v l =>
      mk (id l) (type_ l) v (end_ l) (magnitude l) (unit l) (symbol l) (direction l)
  | k_end => fun v l =>
      mk (id l) (type_ l) (start l) v (magnitude l) (unit l) (symbol l) (direction l)
  | k_magnitude => fun v l =>
      mk (id l) (type_ l) (start l) (end_ l) v (unit l) (symbol l) (direction l)
  | k_unit => fun v l =>
      mk (id l) (type_ l) (start l) (end_ l) (magnitude l) v (symbol l) (direction l)
  | k_symbol => fun v l =>
      mk (id l) (type_ l) (start l) (end_ l) (magnitude l) (unit l) v (direction l)
  | k_direction => fun v l =>
      mk (id l) (type_ l) (start l) (end_ l) (magnitude l) (unit l) (symbol l) v
  end.
End BeamLoad.

Module Dimension.
Record t := mk {
  id : string;
  start : float;
  end_ : float;
  value : float;
  unit : string;
  symbol : string;
  yOffset : option float
}.
End Dimension.

Record BeamStructure := mkStructure {
  totalLength : float;
  nodes : list BeamNode.t;
  loads : list BeamLoad.t;
  dimensions : list Dimension.t
}.

Record AnalysisResult := mkResult {
  structure : BeamStructure;
  latexCode : string
}.

(** ** The update logic of [App]

    Both closures read the React state [result : AnalysisResult | null] and
    either leave it alone (a bare [return]) or replace it through
    [setResult].  They are modelled as functions from the state before the
    call to the state after it.

    The source edits the arrays and the element objects of the old
    structure in place before handing the copy to [setResult].  The elements
    of a structure are pairwise distinct objects (they come out of
    [JSON.parse], and the only objects created later are fresh spreads), and
    every loop visits each element once, so each in-place loop is a map over
    the list. *)

Section UpdateDimension.

Variable (newValue : float).

(** [{ ...oldDim, value: newValue, end: oldDim.start + newValue }] *)
Definition resized (oldDim : Dimension.t) : Dimension.t :=
  Dimension.mk (Dimension.id oldDim) (Dimension.start oldDim)
    (Dimension.start oldDim + newValue)%float newValue
    (Dimension.unit oldDim) (Dimension.symbol oldDim) (Dimension.yOffset oldDim).

Variables (dimIndex : nat) (pivotX diff : float).

(** Body of the [forEach] over the dimensions. *)
Definition stepDimension (i : nat) (d : Dimension.t) : Dimension.t :=
  if negb (Nat.eqb i dimIndex) && (Dimension.start d >=? pivotX - tolerance)%float
  then Dimension.mk (Dimension.id d) (Dimension.start d + diff)%float
         (Dimension.end_ d + diff)%float (Dimension.value d)
         (Dimension.unit d) (Dimension.symbol d) (Dimension.yOffset d)
  else d.

(** Body of the [forEach] over the nodes. *)
Definition stepNode (n : BeamNode.t) : BeamNode.t :=
  if (BeamNode.position n >=? pivotX - tolerance)%float
  then BeamNode.mk (BeamNode.id n) (BeamNode.label n)
         (BeamNode.position n + diff)%float
         (BeamNode.supportType n) (BeamNode.hasHinge n)
  else n.

(** Body of the [forEach] over the loads. *)
Definition stepLoad (l : BeamLoad.t) : BeamLoad.t :=
  if (BeamLoad.start l >=? pivotX - tolerance)%float
  then BeamLoad.set BeamLoad.k_end (BeamLoad.end_ l + diff)%float
         (BeamLoad.set BeamLoad.k_start (BeamLoad.start l + diff)%float l)
  else if (BeamLoad.end_ l >=? pivotX - tolerance)%float
          && (BeamLoad.start l <? pivotX)%float
  then BeamLoad.set BeamLoad.k_end (BeamLoad.end_ l + diff)%float l
  else l.

End UpdateDimension.

(** The callbacks [d => d.id === dimId] and [l => l.id === loadId]. *)
Definition dimensionHasId (dimId : string) (d : Dimension.t) : bool :=
  String.eqb (Dimension.id d) dimId.

Definition loadHasId (loadId : string) (l : BeamLoad.t) : bool :=
  String.eqb (BeamLoad.id l) loadId.

(** The structure handed to [setResult] once [dimIndex] and [oldDim] are
    known. *)
Definition propagate (newValue : float) (dimIndex : nat) (oldDim : Dimension.t)
    (s : BeamStructure) : BeamStructure :=
  let diff := (newValue - Dimension.value oldDim)%float in
  let dimensions1 := <[dimIndex := resized newValue oldDim]> (dimensions s) in
  let pivotX := Dimension.end_ oldDim in
  let dimensions2 := imap (stepDimension dimIndex pivotX diff) dimensions1 in
  let nodes2 := stepNode pivotX diff <$> nodes s in
  let loads2 := stepLoad pivotX diff <$> loads s in
  mkStructure (JS.Math_max (BeamNode.position <$> nodes2))
    nodes2 loads2 dimensions2.

(** [updateDimension]: the state after the call. *)
Definition updateDimension (result : option AnalysisResult)
    (dimId : string) (newValue : float) : option AnalysisResult :=
  match result with
  | None => None
  | Some r =>
      match JS.findIndex (dimensionHasId dimId) (dimensions (structure r)) with
      | None => Some r
      | Some dimIndex =>
          match dimensions (structure r) !! dimIndex with
          | None => Some r (* out of reach: [findIndex] answers within bounds *)
          | Some oldDim =>
              Some (mkResult (propagate newValue dimIndex oldDim (structure r))
                      (latexCode r))
          end
      end
  end.

(** [updateLoad]: the state after the call. *)
Definition updateLoad (result : option AnalysisResult) (loadId : string)
    (field : BeamLoad.key) (value : BeamLoad.field field) : option AnalysisResult :=
  match result with
  | None => None
  | Some r =>
      let s := structure r in
      match JS.findIndex (loadHasId loadId) (loads s) with
      | None => Some r
      | Some idx =>
          match loads s !! idx with
          | None => Some r (* out of reach, as above *)
          | Some l =>
              Some (mkResult
                      (mkStructure (totalLength s) (nodes s)
                         (<[idx := BeamLoad.set field value l]> (loads s))
                         (dimensions s))
                      (latexCode r))
          end
      end
  end.

(** ** Vocabulary of the statements *)

(** The fields of a node, a load and a dimension that carry no position. *)
Definition sameNodeData (n n' : BeamNode.t) : Prop :=
  BeamNode.id n' = BeamNode.id n /\ BeamNode.label n' = BeamNode.label n /\
  BeamNode.supportType n' = BeamNode.supportType n /\
  BeamNode.hasHinge n' = BeamNode.hasHinge n.

Definition sameLoadData (l l' : BeamLoad.t) : Prop :=
  BeamLoad.id l' = BeamLoad.id l /\ BeamLoad.type_ l' = BeamLoad.type_ l /\
  BeamLoad.magnitude l' = BeamLoad.magnitude l /\
  BeamLoad.unit l' = BeamLoad.unit l /\ BeamLoad.symbol l' = BeamLoad.symbol l /\
  BeamLoad.direction l' = BeamLoad.direction l.

Definition sameDimensionData (d d' : Dimension.t) : Prop :=
  Dimension.id d' = Dimension.id d /\ Dimension.unit d' = Dimension.unit d /\
  Dimension.symbol d' = Dimension.symbol d /\
  Dimension.yOffset d' = Dimension.yOffset d.

(** The rule for a load in the words of the specification: three cases, the
    second one decided by [load.end >= pivot - 0.001] alone. *)
Definition loadRuleAsStated (pivot diff : float) (l : BeamLoad.t) : BeamLoad.t :=
  if (BeamLoad.start l >=? pivot - tolerance)%float
  then BeamLoad.mk (BeamLoad.id l) (BeamLoad.type_ l)
         (BeamLoad.start l + diff)%float (BeamLoad.end_ l + diff)%float
         (BeamLoad.magnitude l) (BeamLoad.unit l) (BeamLoad.symbol l)
         (BeamLoad.direction l)
  else if (BeamLoad.end_ l >=? pivot - tolerance)%float
  then BeamLoad.mk (BeamLoad.id l) (BeamLoad.type_ l)
         (BeamLoad.start l) (BeamLoad.end_ l + diff)%float
         (BeamLoad.magnitude l) (BeamLoad.unit l) (BeamLoad.symbol l)
         (BeamLoad.direction l)
  else l.

(** The rule of the source: the second case also asks for
    [load.start < pivot]. *)
Definition loadRule (pivot diff : float) (l : BeamLoad.t) : BeamLoad.t :=
  if (BeamLoad.start l >=? pivot - tolerance)%float
  then BeamLoad.mk (BeamLoad.id l) (BeamLoad.type_ l)
         (BeamLoad.start l + diff)%float (BeamLoad.end_ l + diff)%float
         (BeamLoad.magnitude l) (BeamLoad.unit l) (BeamLoad.symbol l)
         (BeamLoad.direction l)
  else if (BeamLoad.end_ l >=? pivot - tolerance)%float
          && (BeamLoad.start l <? pivot)%float
  then BeamLoad.mk (BeamLoad.id l) (BeamLoad.type_ l)
         (BeamLoad.start l) (BeamLoad.end_ l + diff)%float
         (BeamLoad.magnitude l) (BeamLoad.unit l) (BeamLoad.symbol l)
         (BeamLoad.direction l)
  else l.

(** Geometry strictly before [bound] is found unchanged in [s']: the nodes
    whose position is below [bound], the loads whose [start] and [end] are,
    and the dimensions, the edited one apart, whose [start] is. *)
Definition unchangedBefore (bound : float) (dimIndex : nat)
    (s s' : BeamStructure) : Prop :=
  (forall j n, nodes s !! j = Some n ->
     (BeamNode.position n <? bound)%float = true -> nodes s' !! j = Some n) /\
  (forall j l, loads s !! j = Some l ->
     (BeamLoad.start l <? bound)%float = true ->
     (BeamLoad.end_ l <? bound)%float = true -> loads s' !! j = Some l) /\
  (forall j d, j <> dimIndex -> dimensions s !! j = Some d ->
     (Dimension.start d <? bound)%float = true -> dimensions s' !! j = Some d).

(** The frame in the words of the specification: everything strictly before
    the pivot itself, a load counting as before it when its [end] is. *)
Definition unchangedBeforePivotAsStated (pivot : float) (dimIndex : nat)
    (s s' : BeamStructure) : Prop :=
  (forall j n, nodes s !! j = Some n ->
     (BeamNode.position n <? pivot)%float = true -> nodes s' !! j = Some n) /\
  (forall j l, loads s !! j = Some l ->
     (BeamLoad.end_ l <? pivot)%float = true -> loads s' !! j = Some l) /\
  (forall j d, j <> dimIndex -> dimensions s !! j = Some d ->
     (Dimension.start d <? pivot)%float = true -> dimensions s' !! j = Some d).

(** No coordinate of the structure is [-0]: adding a zero [diff] to [-0]
    gives [+0]. *)
Definition noNegativeZero (s : BeamStructure) : Prop :=
  Forall (fun n => BeamNode.position n <> neg_zero) (nodes s) /\
  Forall (fun l => BeamLoad.start l <> neg_zero /\ BeamLoad.end_ l <> neg_zero)
    (loads s) /\
  Forall (fun d => Dimension.start d <> neg_zero /\ Dimension.end_ d <> neg_zero)
    (dimensions s).

(** What the rounding proofs speak of: a shift record that lost a bit, a
    record obtained from another by dropping its [k] low bits, and the
    number that closes [binary_round_aux]. *)
Definition inexact (r : shr_record) : bool := shr_r r || shr_s r.

Definition Shifted (k : Z) (r r' : shr_record) : Prop :=
  (0 <= shr_m r')%Z /\ shr_m r' = (shr_m r / 2 ^ k)%Z /\
  (inexact r' = true -> inexact r = true \/ (shr_m r mod 2 ^ k)%Z <> 0%Z).

Definition finite_or_infinity (prec emax : Z) (s : bool) (m e : Z) : spec_float :=
  match m with
  | Z0 => S754_zero s
  | Zpos p => if (e <=? emax - prec)%Z then S754_finite s p e else S754_infinity s
  | Zneg _ => S754_nan
  end.

(** ** Running examples

    The structure of the specification's example: dimension [L1] over
    [0, 10], node [A] at 10 and point load [P1] at 10; a second span [L2]
    over [10, 14], its end node [B] and a distributed load over the whole
    beam are added. *)

Module Example.
Definition L1 := Dimension.mk "d1" 0 10 10 "ft" "L1" None.
Definition L2 := Dimension.mk "d2" 10 14 4 "ft" "L2" None.
Definition O := BeamNode.mk "n0" "O" 0 (Some PIN) None.
Definition A := BeamNode.mk "n1" "A" 10 (Some ROLLER) (Some false).
Definition B := BeamNode.mk "n2" "B" 14 (Some FREE) None.
Definition P1 := BeamLoad.mk "l1" POINT 10 10 5 "k" "P1" DOWN.
Definition w := BeamLoad.mk "l2" DISTRIBUTED 0 14 2 "k/ft" "w" DOWN.
Definition P0 := BeamLoad.mk "l3" POINT 4 4 3 "k" "P0" UP.

Definition tikz : string := "\draw (0,0) -- (14,0);".

Definition beam : BeamStructure :=
  mkStructure 14 [O; A; B] [P1; w; P0] [L1; L2].

Definition result : AnalysisResult := mkResult beam tikz.
End Example.

(** A beam with a node, a load and a dimension close to the end of [L1], all
    three strictly before it: [9.99951171875] is [10 - 2^-11]. *)
Module NearPivot.
Definition N := BeamNode.mk "n3" "N" 9.99951171875 None None.
Definition q := BeamLoad.mk "l5" DISTRIBUTED 5 9.99951171875 2 "k/ft" "q" DOWN.
Definition G := Dimension.mk "d3" 9.99951171875 14 4 "ft" "G" None.

Definition beam : BeamStructure :=
  mkStructure 14 [Example.O; N; Example.B] [q; Example.P0]
    [Example.L1; G].

Definition result : AnalysisResult := mkResult beam Example.tikz.
End NearPivot.

(** ** The rest of [App] and [BeamVisualizer]

    The parts of the two components that compute: what the parameter inputs
    hand to the two closures above, how the report text is cleaned before it
    is shown, how the payload of a data URL is cut out, and the numbers the
    diagram is drawn from. *)

(** [x || 0] on a Number: NaN, [+0] and [-0] are falsy. *)
Definition orZero (x : float) : float :=
  if is_nan x || (x =? 0)%float then 0%float else x.

(** [x || 0] on an optional Number: [undefined] is falsy too. *)
Definition orZeroOpt (x : option float) : float :=
  match x with
  | Some v => orZero v
  | None => 0%float
  end.

(** The [onChange] handler of the input that the parameter panel renders
    for the [j]-th dimension, [updateDimension(dim.id, parseFloat(...) || 0)];
    [parsed] stands for [parseFloat(e.target.value)].  The panel exists only
    while [result] is set, with one input per dimension; the handler runs on
    the state the panel was rendered from. *)
Definition dimensionInputChange (result : option AnalysisResult) (j : nat)
    (parsed : float) : option AnalysisResult :=
  match result with
  | None => None
  | Some r =>
      match dimensions (structure r) !! j with
      | None => Some r
      | Some dim => updateDimension (Some r) (Dimension.id dim) (orZero parsed)
      end
  end.

(** The [onChange] handler of the input rendered for the [j]-th load,
    [updateLoad(load.id, 'magnitude', parseFloat(...) || 0)]. *)
Definition loadInputChange (result : option AnalysisResult) (j : nat)
    (parsed : float) : option AnalysisResult :=
  match result with
  | None => None
  | Some r =>
      match loads (structure r) !! j with
      | None => Some r
      | Some load =>
          updateLoad (Some r) (BeamLoad.id load) BeamLoad.k_magnitude (orZero parsed)
      end
  end.

(** JavaScript strings are sequences of UTF-16 code units. *)
Module JSString.

Definition t : Type := list N.

(** The code units of an ASCII literal. *)
Definition lit (s : string) : t :=
  Ascii.N_of_ascii <$> String.list_ascii_of_string s.

(** [s.startsWith(pat)], the test a literal regular expression makes at one
    position. *)
Fixpoint startsWith (pat s : t) : bool :=
  match pat, s with
  | [], _ => true
  | _ :: _, [] => false
  | p :: pat', c :: s' => if N.eqb p c then startsWith pat' s' else false
  end.

(** [s.replace(/pat/g, '')] for a literal, non-empty [pat]: the matches are
    taken from left to right, each search resuming behind the last match.
    [skip] counts the code units of the current match still to be dropped. *)
Fixpoint removeAllFrom (pat : t) (skip : nat) (s : t) : t :=
  match s with
  | [] => []
  | c :: rest =>
      match skip with
      | S k => removeAllFrom pat k rest
      | O =>
          if startsWith pat s then removeAllFrom pat (length pat - 1) rest
          else c :: removeAllFrom pat 0 rest
      end
  end.

Definition removeAll (pat s : t) : t := removeAllFrom pat 0 s.

(** [s.split(sep)] for a separator of one code unit. *)
Fixpoint split (sep : N) (s : t) : list t :=
  match s with
  | [] => [[]]
  | c :: rest =>
      if N.eqb c sep then [] :: split sep rest
      else match split sep rest with
           | piece :: pieces => (c :: piece) :: pieces
           | [] => [[c]]
           end
  end.

End JSString.

(** The text shown for the report:
    [report.replace(/```markdown/g, '').replace(/```/g, '')]. *)
Definition fence : JSString.t := JSString.lit "```".

Definition shownReport (report : JSString.t) : JSString.t :=
  JSString.removeAll fence
    (JSString.removeAll (JSString.lit "```markdown") report).

(** [base64Data.split(',')[1]] in [handleAnalyze]; [None] is [undefined]. *)
Definition base64Content (base64Data : JSString.t) : option JSString.t :=
  JSString.split 44%N base64Data !! 1.

(** [BeamVisualizer]: the scaling of beam positions to screen abscissas and
    what [renderDimensions] draws. *)
Module Visualizer.

Definition PADDING_X : float := 60.
Definition BEAM_Y : float := 150.

(** The memoised [scale]; it is recomputed exactly when [data.totalLength]
    changes, so it is a function of [data]. *)
Definition scale (data : BeamStructure) : float :=
  let availableWidth := (800 - (PADDING_X * 2))%float in
  if (0 <? totalLength data)%float
  then (availableWidth / totalLength data)%float
  else 1%float.

Definition getX (data : BeamStructure) (pos : float) : float :=
  (PADDING_X + pos * scale data)%float.

(** The [<g>] element of one dimension, by the numbers it is drawn from: the
    tick marks stand at [x1] and [x2], the line runs between them at height
    [y], the label sits at their middle.  Styling and the label text are
    left out. *)
Record DimensionMark := mkMark {
  key : string;
  x1 : float;
  x2 : float;
  y : float
}.

(** The callback of [renderDimensions]; [None] is the [null] returned for a
    dimension narrower than one pixel. *)
Definition renderDimension (data : BeamStructure) (dim : Dimension.t)
    : option DimensionMark :=
  let y := (BEAM_Y + 50 + orZeroOpt (Dimension.yOffset dim))%float in
  let x1 := getX data (Dimension.start dim) in
  let x2 := getX data (Dimension.end_ dim) in
  if (abs (x2 - x1) <? 1)%float then None
  else Some (mkMark (Dimension.id dim) x1 x2 y).

Definition renderDimensions (data : BeamStructure) : list (option DimensionMark) :=
  renderDimension data <$> dimensions data.

End Visualizer.

(** ** Vocabulary of the further statements *)

(** The decoded Number [x] is not NaN and has the sign [s]. *)
Definition hasSign (s : bool) (x : spec_float) : Prop :=
  match x with
  | S754_nan => False
  | S754_zero s' | S754_infinity s' | S754_finite s' _ _ => s' = s
  end.

(** Every coordinate of the structure is finite; none is NaN. *)
Definition finiteGeometry (s : BeamStructure) : Prop :=
  is_finite (totalLength s) = true /\
  Forall (fun n => is_finite (BeamNode.position n) = true) (nodes s) /\
  Forall (fun l => is_finite (BeamLoad.start l) = true /\
                   is_finite (BeamLoad.end_ l) = true) (loads s) /\
  Forall (fun d => is_finite (Dimension.start d) = true /\
                   is_finite (Dimension.end_ d) = true /\
                   is_finite (Dimension.value d) = true) (dimensions s).

Definition numberGeometry (s : BeamStructure) : Prop :=
  is_nan (totalLength s) = false /\
  Forall (fun n => is_nan (BeamNode.position n) = false) (nodes s) /\
  Forall (fun l => is_nan (BeamLoad.start l) = false /\
                   is_nan (BeamLoad.end_ l) = false) (loads s) /\
  Forall (fun d => is_nan (Dimension.start d) = false /\
                   is_nan (Dimension.end_ d) = false /\
                   is_nan (Dimension.value d) = false) (dimensions s).

(** [pat] occurs in [s]. *)
Definition occursIn (pat s : JSString.t) : Prop :=
  exists before after, s = before ++ pat ++ after.

(** The same as a test. *)
Fixpoint occursInb (pat s : JSString.t) : bool :=
  match s with
  | [] => JSString.startsWith pat []
  | _ :: rest => JSString.startsWith pat s || occursInb pat rest
  end.

(** * Proofs *)

(** Two values on which a boolean observation [f] differs are different. *)
Ltac told_apart_by f :=
  let H := fresh "H" in
  intros H; apply (f_equal f) in H; vm_compute in H; discriminate H.

(** ** Facts about binary64 comparison and addition

    Obtained from the specification of the primitive operations
    ([FloatAxioms]) by case analysis on the decoded value. *)

Module FloatFacts.

Lemma SFcompare_antisym a b :
  SFcompare b a = CompOpp <$> SFcompare a b.
Proof.
  destruct a as [sa|sa| |sa ma ea], b as [sb|sb| |sb mb eb]; simpl;
    try (destruct sa); try (destruct sb); simpl; try reflexivity.
  - rewrite (Z.compare_antisym ea eb).
    destruct (ea ?= eb)%Z; simpl; try reflexivity.
    change (PosDef.Pos.compare_cont Eq) with Pos.compare.
    now rewrite (Pos.compare_antisym ma mb), CompOpp_involutive.
  - rewrite (Z.compare_antisym ea eb).
    destruct (ea ?= eb)%Z; simpl; try reflexivity.
    change (PosDef.Pos.compare_cont Eq) with Pos.compare.
    now rewrite (Pos.compare_antisym ma mb).
Qed.

Lemma SFcompare_refl a : a <> S754_nan -> SFcompare a a = Some Eq.
Proof.
  destruct a as [[]|[]| |[] m e]; simpl; intros H; try easy;
    rewrite Z.compare_refl;
    change (PosDef.Pos.compare_cont Eq) with Pos.compare;
    now rewrite Pos.compare_refl.
Qed.

Lemma SFleb_trans a b c :
  SFleb a b = true -> SFleb b c = true -> SFleb a c = true.
Proof.
  unfold SFleb.
  destruct a as [sa|sa| |sa ma ea], b as [sb|sb| |sb mb eb],
           c as [sc|sc| |sc mc ec]; simpl;
    try (destruct sa); try (destruct sb); try (destruct sc); simpl;
    try easy;
    change (PosDef.Pos.compare_cont Eq) with Pos.compare;
    destruct (Z.compare_spec ea eb), (Z.compare_spec eb ec),
             (Z.compare_spec ea ec); simpl; try easy; try lia;
    destruct (Pos.compare_spec ma mb), (Pos.compare_spec mb mc),
             (Pos.compare_spec ma mc); simpl; try easy; try lia.
Qed.

Lemma is_nan_spec x : is_nan x = true <-> Prim2SF x = S754_nan.
Proof.
  unfold is_nan. rewrite FloatAxioms.eqb_spec. unfold SFeqb. split.
  - destruct (Prim2SF x) eqn:E; try reflexivity;
      rewrite SFcompare_refl; simpl; congruence.
  - intros ->. reflexivity.
Qed.

Lemma is_nan_false x : is_nan x = false <-> Prim2SF x <> S754_nan.
Proof.
  rewrite <- is_nan_spec. destruct (is_nan x); split; congruence.
Qed.

(** A strict comparison excludes the weak comparison the other way round. *)
Lemma ltb_geb_false x y : (x <? y)%float = true -> (x >=? y)%float = false.
Proof.
  unfold JS.geb. rewrite FloatAxioms.ltb_spec, FloatAxioms.leb_spec. unfold SFltb, SFleb.
  rewrite (SFcompare_antisym (Prim2SF x) (Prim2SF y)).
  destruct (SFcompare (Prim2SF x) (Prim2SF y)) as [[]|]; simpl; congruence.
Qed.

Lemma ltb_leb x y : (x <? y)%float = true -> (x <=? y)%float = true.
Proof.
  rewrite FloatAxioms.ltb_spec, FloatAxioms.leb_spec. unfold SFltb, SFleb.
  destruct (SFcompare (Prim2SF x) (Prim2SF y)) as [[]|]; simpl; congruence.
Qed.

Lemma leb_refl x : is_nan x = false -> (x <=? x)%float = true.
Proof.
  rewrite is_nan_false, FloatAxioms.leb_spec. unfold SFleb. intros H.
  now rewrite SFcompare_refl.
Qed.

Lemma leb_trans x y z :
  (x <=? y)%float = true -> (y <=? z)%float = true -> (x <=? z)%float = true.
Proof. rewrite !FloatAxioms.leb_spec. apply SFleb_trans. Qed.

(** On Numbers other than NaN the order is total. *)
Lemma ltb_false_leb x y :
  is_nan x = false -> is_nan y = false ->
  (x <? y)%float = false -> (y <=? x)%float = true.
Proof.
  rewrite !is_nan_false, FloatAxioms.ltb_spec, FloatAxioms.leb_spec. unfold SFltb, SFleb.
  rewrite (SFcompare_antisym (Prim2SF x) (Prim2SF y)).
  intros Hx Hy.
  destruct (Prim2SF x) as [[]|[]| |[] ? ?], (Prim2SF y) as [[]|[]| |[] ? ?];
    simpl; try congruence;
    match goal with |- context [Z.compare ?a ?b] =>
      destruct (Z.compare a b); simpl; try congruence end;
    match goal with |- context [PosDef.Pos.compare_cont Eq ?a ?b] =>
      destruct (PosDef.Pos.compare_cont Eq a b); simpl; congruence end.
Qed.

(** A comparison that holds compares two Numbers. *)
Lemma geb_true_number x y :
  (x >=? y)%float = true -> is_nan x = false /\ is_nan y = false.
Proof.
  unfold JS.geb. rewrite !is_nan_false, FloatAxioms.leb_spec. unfold SFleb.
  destruct (Prim2SF y), (Prim2SF x); simpl; try discriminate; now split.
Qed.

Lemma geb_false_ltb x y :
  is_nan x = false -> is_nan y = false ->
  (x >=? y)%float = false -> (x <? y)%float = true.
Proof.
  unfold JS.geb.
  rewrite !is_nan_false, FloatAxioms.ltb_spec, FloatAxioms.leb_spec.
  unfold SFltb, SFleb. rewrite (SFcompare_antisym (Prim2SF x) (Prim2SF y)).
  intros Hx Hy.
  destruct (Prim2SF x) as [[]|[]| |[] ? ?], (Prim2SF y) as [[]|[]| |[] ? ?];
    simpl; try congruence;
    match goal with |- context [Z.compare ?a ?b] =>
      destruct (Z.compare a b); simpl; try congruence end;
    match goal with |- context [PosDef.Pos.compare_cont Eq ?a ?b] =>
      destruct (PosDef.Pos.compare_cont Eq a b); simpl; congruence end.
Qed.

Lemma neg_zero_spec x : Prim2SF x = S754_zero true -> x = neg_zero.
Proof. intros H. apply Prim2SF_inj. now rewrite H. Qed.

(** Adding [+0] changes nothing but the sign of [-0]. *)
Lemma add_zero_r x : x <> neg_zero -> (x + zero)%float = x.
Proof.
  intros Hx. apply Prim2SF_inj. rewrite FloatAxioms.add_spec.
  change (Prim2SF zero) with (S754_zero false).
  destruct (Prim2SF x) as [[]|[]| |[] ? ?] eqn:E; try reflexivity.
  elim Hx. now apply neg_zero_spec.
Qed.

Lemma is_finite_spec x :
  is_finite x = true ->
  match Prim2SF x with S754_zero _ | S754_finite _ _ _ => True | _ => False end.
Proof.
  unfold is_finite, is_infinity. rewrite negb_true_iff, orb_false_iff.
  intros [Hn Hi]. apply is_nan_false in Hn.
  rewrite FloatAxioms.eqb_spec, FloatAxioms.abs_spec in Hi.
  destruct (Prim2SF x) as [|[]| |]; try easy.
Qed.

(** A finite Number minus itself is [+0]. *)
Lemma sub_diag x : is_finite x = true -> (x - x)%float = zero.
Proof.
  intros H. apply is_finite_spec in H. apply Prim2SF_inj. rewrite FloatAxioms.sub_spec.
  change (Prim2SF zero) with (S754_zero false).
  destruct (Prim2SF x) as [[]|[]| |s m e]; try easy.
  unfold SF64sub, SFsub. rewrite Z.sub_diag. reflexivity.
Qed.

End FloatFacts.

(** ** Rounding

    The subtraction [pivot - 0.001] is rounded to the nearest binary64
    value.  This part follows the rounding of [SpecFloat] step by step to
    show that the rounded difference does not exceed [pivot]. *)

Module Rounding.

Local Open Scope Z_scope.

(** [digits2_pos m] is the number of binary digits of [m]. *)
Lemma digits2_bounds m :
  2 ^ (Zpos (digits2_pos m) - 1) <= Zpos m < 2 ^ Zpos (digits2_pos m).
Proof.
  induction m as [m IH|m IH|]; simpl digits2_pos;
    [rewrite Pos2Z.inj_succ; set (d := Z.pos (digits2_pos m)) in *..|simpl; lia];
    replace (Z.succ d - 1) with (Z.succ (d - 1)) by lia;
    rewrite !Z.pow_succ_r by lia; lia.
Qed.

Lemma digits2_le_of_lt m k : 0 <= k -> Zpos m < 2 ^ k -> Zpos (digits2_pos m) <= k.
Proof.
  intros Hk Hlt. destruct (digits2_bounds m) as [Hlo _].
  destruct (Z.le_gt_cases (Zpos (digits2_pos m)) k) as [|Hgt]; [done|].
  assert (2 ^ k <= 2 ^ (Zpos (digits2_pos m) - 1)) by (apply Z.pow_le_mono_r; lia).
  lia.
Qed.

Lemma digits2_ge_of_ge m k : 2 ^ k <= Zpos m -> k < Zpos (digits2_pos m).
Proof.
  intros Hle. destruct (digits2_bounds m) as [_ Hhi].
  destruct (Z.lt_ge_cases k (Zpos (digits2_pos m))) as [|Hge]; [done|].
  assert (2 ^ Zpos (digits2_pos m) <= 2 ^ k) by (apply Z.pow_le_mono_r; lia).
  lia.
Qed.

(** Dropping [a] bits and then [b] bits drops [a + b] bits. *)
Lemma Shifted_trans a b r r' r'' :
  0 <= a -> 0 <= b -> 0 <= shr_m r ->
  Shifted a r r' -> Shifted b r' r'' -> Shifted (a + b) r r''.
Proof.
  intros Ha Hb Hm (Hpos' & Hm' & Hin') (Hpos'' & Hm'' & Hin'').
  assert (0 < 2 ^ a) by (apply Z.pow_pos_nonneg; lia).
  assert (0 < 2 ^ b) by (apply Z.pow_pos_nonneg; lia).
  split; [done|]. split.
  - rewrite Hm'', Hm', Z.pow_add_r, Z.div_div by lia. reflexivity.
  - intros Hi. destruct (Z.eq_dec (shr_m r mod 2 ^ (a + b)) 0) as [Hz|]; [|auto].
    left. apply Z.mod_divide in Hz; [|rewrite Z.pow_add_r by lia; lia].
    destruct Hz as [c Hc]. rewrite Z.pow_add_r in Hc by lia.
    assert (shr_m r mod 2 ^ a = 0) as Ha0.
    { rewrite Hc. replace (c * (2 ^ a * 2 ^ b)) with (c * 2 ^ b * 2 ^ a) by ring.
      apply Z.mod_mul. lia. }
    assert (shr_m r' mod 2 ^ b = 0) as Hb0.
    { rewrite Hm', Hc. replace (c * (2 ^ a * 2 ^ b)) with (c * 2 ^ b * 2 ^ a) by ring.
      rewrite Z.div_mul by lia. apply Z.mod_mul. lia. }
    destruct (Hin'' Hi) as [Hi'|]; [|lia].
    destruct (Hin' Hi') as [|]; [done|lia].
Qed.

(** One step of [shr_1] drops one bit. *)
Lemma Shifted_shr_1 r : 0 <= shr_m r -> Shifted 1 r (shr_1 r).
Proof.
  destruct r as [m rb sb]. unfold Shifted, inexact. simpl shr_m at 1.
  intros Hm. change (2 ^ 1) with 2.
  destruct m as [|[p|p|]|p]; simpl; try lia.
  - split; [lia|]. split; [reflexivity|]. auto.
  - split; [lia|]. split; [rewrite Pos2Z.inj_xI; apply Z.div_unique with 1; lia|].
    intros _. right. rewrite Pos2Z.inj_xI.
    replace (2 * Z.pos p + 1) with (1 + Z.pos p * 2) by ring. rewrite Z.mod_add by lia. easy.
  - split; [lia|]. split; [rewrite Pos2Z.inj_xO; apply Z.div_unique with 0; lia|].
    auto.
  - split; [lia|]. split; [reflexivity|]. intros _. right. easy.
Qed.

Lemma Shifted_iter p : forall r, 0 <= shr_m r ->
  Shifted (Zpos p) r (SpecFloat.iter_pos shr_1 p r).
Proof.
  induction p as [p IH|p IH|]; intros r Hr; simpl iter_pos.
  - pose proof (Shifted_shr_1 r Hr) as H1.
    assert (0 <= shr_m (shr_1 r)) as Hr1 by apply H1.
    pose proof (IH _ Hr1) as H2.
    assert (0 <= shr_m (SpecFloat.iter_pos shr_1 p (shr_1 r))) as Hr2 by apply H2.
    pose proof (IH _ Hr2) as H3.
    replace (Z.pos p~1) with (1 + (Z.pos p + Z.pos p)) by lia.
    apply Shifted_trans with (shr_1 r); try lia; try done.
    apply Shifted_trans with (SpecFloat.iter_pos shr_1 p (shr_1 r)); try lia; done.
  - pose proof (IH _ Hr) as H2.
    assert (0 <= shr_m (SpecFloat.iter_pos shr_1 p r)) as Hr2 by apply H2.
    pose proof (IH _ Hr2) as H3.
    replace (Z.pos p~0) with (Z.pos p + Z.pos p) by lia.
    apply Shifted_trans with (SpecFloat.iter_pos shr_1 p r); try lia; done.
  - now apply Shifted_shr_1.
Qed.

(** The bounds of [digits2_bounds] determine the number of digits. *)
Lemma digits2_unique m d :
  2 ^ (d - 1) <= Zpos m < 2 ^ d -> Zpos (digits2_pos m) = d.
Proof.
  intros [Hlo Hhi].
  assert (0 <= d).
  { destruct (Z.lt_ge_cases d 0) as [Hneg|]; [|done].
    rewrite (Z.pow_neg_r 2 d) in Hhi by done. lia. }
  pose proof (digits2_le_of_lt m d). pose proof (digits2_ge_of_ge m (d - 1)). lia.
Qed.

(** Iterating [xO] multiplies by a power of two. *)
Lemma iter_xO m k : Zpos (Pos.iter xO m k) = Zpos m * 2 ^ Zpos k.
Proof.
  induction k as [|k IH] using Pos.peano_ind.
  - simpl. lia.
  - rewrite Pos.iter_succ, Pos2Z.inj_xO, IH, Pos2Z.inj_succ, Z.pow_succ_r by lia. ring.
Qed.

(** [shl_align] lowers the exponent to the one asked for, when that is
    lower, and keeps the value. *)
Lemma shl_align_spec mx ex ex' :
  snd (shl_align mx ex ex') = Z.min ex ex' /\
  Zpos (fst (shl_align mx ex ex')) = Zpos mx * 2 ^ (ex - Z.min ex ex').
Proof.
  unfold shl_align. destruct (ex' - ex) as [|k|k] eqn:E; simpl.
  - rewrite Z.min_l by lia. rewrite Z.sub_diag. simpl. lia.
  - rewrite Z.min_l by lia. rewrite Z.sub_diag. simpl. lia.
  - rewrite Z.min_r by lia. split; [done|]. rewrite iter_xO. f_equal. f_equal. lia.
Qed.

(** [shr] from a record without lost bits: the mantissa is divided by
    [2 ^ n], and a lost bit tells that the division was not exact. *)
Lemma shr_exact m e n :
  0 <= m ->
  snd (shr (Build_shr_record m false false) e n) = e + Z.max n 0 /\
  0 <= shr_m (fst (shr (Build_shr_record m false false) e n)) /\
  shr_m (fst (shr (Build_shr_record m false false) e n)) = m / 2 ^ Z.max n 0 /\
  (inexact (fst (shr (Build_shr_record m false false) e n)) = true ->
   m mod 2 ^ Z.max n 0 <> 0).
Proof.
  intros Hm. destruct n as [|p|p]; simpl.
  - rewrite Z.div_1_r. repeat split; try lia. easy.
  - destruct (Shifted_iter p (Build_shr_record m false false) Hm) as (H0 & H1 & H2).
    repeat split; try done. intros Hi. destruct (H2 Hi) as [H|H]; [easy|done].
  - rewrite Z.div_1_r. repeat split; try lia. easy.
Qed.

(** Rounding to nearest moves the truncated mantissa up by one at most, and
    not at all when no bit was lost. *)
Lemma round_nearest_even_bounds r :
  shr_m r <= round_nearest_even (shr_m r) (loc_of_shr_record r) <= shr_m r + 1 /\
  (inexact r = false ->
   round_nearest_even (shr_m r) (loc_of_shr_record r) = shr_m r).
Proof.
  destruct r as [m [] []]; unfold inexact; simpl; try destruct (Z.even m); split; try lia; easy.
Qed.

Section Format.

Variables prec emax : Z.
Hypothesis Hprec : 0 < prec.

Local Abbreviation emin := (SpecFloat.emin prec emax).
Local Abbreviation fexp := (SpecFloat.fexp prec emax).

Lemma fexp_ge_emin e : emin <= fexp e.
Proof. unfold SpecFloat.fexp. lia. Qed.

Lemma fexp_mono a b : a <= b -> fexp a <= fexp b.
Proof. unfold SpecFloat.fexp. lia. Qed.

(** The course of [binary_round] on the mantissa [my] at exponent [ey]:
    [E] is the exponent of the format for that magnitude, [mz / 2 ^ n] the
    mantissa truncated at [E], [m1] its rounding; the result carries [m1]
    at [E], or [2 ^ (prec - 1)] at [E + 1] when rounding carried into a new
    digit. *)
Lemma binary_round_spec s my ey E c mz n :
  E = fexp (Zpos (digits2_pos my) + ey) ->
  c = Z.min ey E ->
  mz = Zpos my * 2 ^ (ey - c) ->
  n = E - c ->
  exists m1 m2 e2,
    mz / 2 ^ n <= m1 <= mz / 2 ^ n + 1 /\
    (m1 = mz / 2 ^ n + 1 -> mz mod 2 ^ n <> 0) /\
    mz / 2 ^ n < 2 ^ prec /\
    (emin < E -> 2 ^ (prec - 1) <= mz / 2 ^ n) /\
    ((m1 < 2 ^ prec /\ m2 = m1 /\ e2 = E) \/
     (m1 = 2 ^ prec /\ m2 = 2 ^ (prec - 1) /\ e2 = E + 1)) /\
    binary_round prec emax s my ey = finite_or_infinity prec emax s m2 e2.
Proof.
  intros HE Hc Hmzdef Hndef.
  pose proof (digits2_bounds my) as Hd.
  remember (Zpos (digits2_pos my)) as d eqn:Hddef.
  assert (0 < d) as Hdpos by lia.
  assert (c <= ey /\ c <= E /\ 0 <= n) as (Hc1 & Hc2 & Hn) by lia.
  assert (0 < 2 ^ (ey - c)) as Hpow1 by (apply Z.pow_pos_nonneg; lia).
  assert (0 < 2 ^ n) as Hpow2 by (apply Z.pow_pos_nonneg; lia).
  assert (0 < mz) as Hmz by lia.
  (* digits of mz *)
  assert (2 ^ (d + (ey - c) - 1) <= mz < 2 ^ (d + (ey - c))) as Hdz.
  { rewrite Hmzdef. replace (d + (ey - c) - 1) with ((d - 1) + (ey - c)) by lia.
    rewrite !Z.pow_add_r by lia. nia. }
  (* bounds on the truncated mantissa *)
  assert (d + ey - prec <= E) as HE1 by (rewrite HE; unfold SpecFloat.fexp; lia).
  assert (emin <= E) as HE2 by (rewrite HE; apply fexp_ge_emin).
  assert (mz / 2 ^ n < 2 ^ prec) as Hlt.
  { apply Z.div_lt_upper_bound; [done|]. rewrite <- Z.pow_add_r by lia.
    eapply Z.lt_le_trans; [apply Hdz|]. apply Z.pow_le_mono_r; lia. }
  assert (emin < E -> 2 ^ (prec - 1) <= mz / 2 ^ n) as Hnormal.
  { intros Hgt. assert (E = d + ey - prec) as HE' by (unfold SpecFloat.fexp in HE; lia).
    apply Z.div_le_lower_bound; [done|]. rewrite <- Z.pow_add_r by lia.
    eapply Z.le_trans; [|apply Hdz]. apply Z.pow_le_mono_r; lia. }
  unfold binary_round. rewrite <- Hddef, <- HE.
  destruct (shl_align_spec my ey E) as [Hez Hmz'].
  destruct (shl_align my ey E) as [mz' ez]. simpl in Hez, Hmz'.
  rewrite <- Hc in Hez, Hmz'. rewrite <- Hmzdef in Hmz'. subst ez.
  assert (Zpos (digits2_pos mz') = d + (ey - c)) as Hdz'.
  { apply digits2_unique. now rewrite Hmz'. }
  unfold binary_round_aux, shr_fexp. simpl Zdigits2. rewrite Hdz'.
  replace (d + (ey - c) + c) with (d + ey) by lia. rewrite <- HE, <- Hndef.
  simpl shr_record_of_loc. rewrite Hmz'.
  destruct (shr_exact mz c n ltac:(lia)) as (He1 & Hr1pos & Hr1 & Hr1in).
  destruct (shr {| shr_m := mz; shr_r := false; shr_s := false |} c n) as [r1 e1].
  simpl in He1, Hr1pos, Hr1, Hr1in. rewrite Z.max_l in He1, Hr1, Hr1in by done.
  assert (e1 = E) as -> by lia.
  destruct (round_nearest_even_bounds r1) as [Hm1 Hm1ex].
  set (m1 := round_nearest_even (shr_m r1) (loc_of_shr_record r1)) in *.
  rewrite Hr1 in Hm1.
  assert (m1 = mz / 2 ^ n + 1 -> mz mod 2 ^ n <> 0) as Hm1in.
  { intros Heq. apply Hr1in. destruct (inexact r1); [done|].
    rewrite Hm1ex in Heq by done. lia. }
  assert (0 <= mz / 2 ^ n) as Hfloor by (apply Z.div_pos; lia).
  destruct (Z.lt_ge_cases m1 (2 ^ prec)) as [Hsmall|Hbig].
  - exists m1, m1, E. do 4 (split; [done|]). split; [left; done|].
    assert (fexp (Zdigits2 m1 + E) - E <= 0) as Hn2.
    { destruct m1 as [|p1|p1]; [| |lia]; simpl Zdigits2.
      - unfold SpecFloat.fexp in *. lia.
      - pose proof (digits2_le_of_lt p1 prec ltac:(lia) Hsmall).
        unfold SpecFloat.fexp in *. lia. }
    destruct (shr_exact m1 E (fexp (Zdigits2 m1 + E) - E) ltac:(lia))
      as (He2 & _ & Hr2 & _).
    destruct (shr _ E _) as [r2 e2]. simpl in He2, Hr2.
    rewrite Z.max_r in He2, Hr2 by done. simpl in Hr2. rewrite Z.div_1_r in Hr2.
    rewrite Hr2. replace e2 with E by lia. reflexivity.
  - assert (m1 = 2 ^ prec) as Hm1eq by lia.
    exists m1, (2 ^ (prec - 1)), (E + 1). do 4 (split; [done|]).
    split; [right; done|].
    assert (fexp (Zdigits2 m1 + E) - E = 1) as Hn2.
    { assert (0 < m1) as Hpos by (rewrite Hm1eq; apply Z.pow_pos_nonneg; lia).
      destruct m1 as [|p1|p1]; [lia| |lia]. simpl Zdigits2.
      rewrite (digits2_unique p1 (prec + 1)).
      - unfold SpecFloat.fexp in *. lia.
      - rewrite Hm1eq. replace (prec + 1 - 1) with prec by lia.
        split; [lia|]. apply Z.pow_lt_mono_r; lia. }
    rewrite Hn2.
    destruct (shr_exact m1 E 1 ltac:(lia)) as (He2 & _ & Hr2 & _).
    destruct (shr _ E 1) as [r2 e2]. simpl in He2, Hr2.
    rewrite Hr2, He2. replace (Z.max 1 0) with 1 by lia.
    rewrite Hm1eq. replace prec with (1 + (prec - 1)) at 1 by lia.
    rewrite Z.pow_add_r by lia. change (2 ^ 1) with 2.
    rewrite Z.mul_comm, Z.div_mul by lia. reflexivity.
Qed.

(** A mantissa of the format has at most [prec] digits and sits at the
    exponent of the format for its magnitude. *)
Lemma canonical_mantissa_spec m e :
  canonical_mantissa prec emax m e = true ->
  e = fexp (Zpos (digits2_pos m) + e) /\ Zpos (digits2_pos m) <= prec /\ emin <= e.
Proof.
  unfold canonical_mantissa. intros H%Z.eqb_eq.
  unfold SpecFloat.fexp in *. lia.
Qed.

(** Rounding a value that a number of the format bounds from above stays
    below that number. *)
Lemma binary_round_le s my ey m e :
  canonical_mantissa prec emax m e = true -> e <= emax - prec ->
  ey <= e -> Zpos my <= Zpos m * 2 ^ (e - ey) ->
  binary_round prec emax s my ey = S754_zero s \/
  exists m2 e2, binary_round prec emax s my ey = S754_finite s m2 e2 /\
    (e2 < e \/ (e2 = e /\ Zpos m2 <= Zpos m)).
Proof.
  intros (He & Hdm & Hemin)%canonical_mantissa_spec Hbound Hey Hle.
  pose proof (digits2_bounds m) as [_ Hmhi].
  pose proof (digits2_bounds my) as [Hmylo _].
  set (dm := Zpos (digits2_pos m)) in *. set (d := Zpos (digits2_pos my)) in *.
  assert (0 < 2 ^ (e - ey)) by (apply Z.pow_pos_nonneg; lia).
  assert (d + ey <= dm + e) as Hd.
  { assert (d <= dm + (e - ey)); [|lia].
    apply digits2_le_of_lt; [lia|]. rewrite Z.pow_add_r by lia. nia. }
  destruct (binary_round_spec s my ey _ _ _ _ eq_refl eq_refl eq_refl eq_refl)
    as (m1 & m2 & e2 & Hm1 & Hin & Hlt & _ & Hcases & ->).
  fold d in Hm1, Hin, Hlt, Hcases.
  set (E := fexp (d + ey)) in *. set (c := Z.min ey E) in *.
  set (mz := Zpos my * 2 ^ (ey - c)) in *. set (n := E - c) in *.
  assert (E <= e) as HE by (rewrite He; apply fexp_mono; lia).
  assert (c <= ey /\ c <= E /\ 0 <= n) as (Hc1 & Hc2 & Hn) by (unfold c, n; lia).
  assert (0 < 2 ^ n) by (apply Z.pow_pos_nonneg; lia).
  assert (0 < 2 ^ (e - E)) by (apply Z.pow_pos_nonneg; lia).
  assert (0 < 2 ^ (ey - c)) by (apply Z.pow_pos_nonneg; lia).
  set (N := Zpos m * 2 ^ (e - E)).
  assert (mz <= 2 ^ n * N) as HmzN.
  { unfold mz, N, n.
    replace (2 ^ (E - c) * (Zpos m * 2 ^ (e - E)))
      with (Zpos m * (2 ^ (e - E) * 2 ^ (E - c))) by ring.
    rewrite <- Z.pow_add_r by lia.
    replace (e - E + (E - c)) with ((e - ey) + (ey - c)) by lia.
    rewrite Z.pow_add_r by lia. nia. }
  assert (0 <= mz / 2 ^ n) by (apply Z.div_pos; unfold mz; lia).
  assert (m1 <= N) as Hm1N.
  { assert (mz / 2 ^ n <= N) by (apply Z.div_le_upper_bound; lia).
    destruct (Z.eq_dec m1 (mz / 2 ^ n + 1)) as [Heq|]; [|lia].
    assert (mz <> 2 ^ n * N).
    { intros Hz. apply (Hin Heq). rewrite Hz, Z.mul_comm. apply Z.mod_mul. lia. }
    assert (mz / 2 ^ n < N) by (apply Z.div_lt_upper_bound; lia). lia. }
  assert (Zpos m < 2 ^ prec) as Hmprec.
  { eapply Z.lt_le_trans; [apply Hmhi|]. apply Z.pow_le_mono_r; lia. }
  destruct Hcases as [(Hsmall & -> & ->)|(Hbig & -> & ->)].
  - unfold finite_or_infinity. destruct m1 as [|p1|p1]; [auto| |lia].
    right. exists p1, E. replace (E <=? emax - prec) with true by lia.
    split; [done|]. destruct (Z.eq_dec E e) as [HEe|]; [right|lia].
    split; [done|]. unfold N in Hm1N. rewrite HEe, Z.sub_diag in Hm1N. simpl in Hm1N. lia.
  - assert (1 <= e - E) as Hgap.
    { destruct (Z.eq_dec e E) as [HeE|]; [|lia]. exfalso.
      unfold N in Hm1N. rewrite HeE, Z.sub_diag in Hm1N. simpl in Hm1N. lia. }
    assert (0 < 2 ^ (prec - 1)) as Hp by (apply Z.pow_pos_nonneg; lia).
    unfold finite_or_infinity. destruct (2 ^ (prec - 1)) as [|p2|p2] eqn:Hp2; [lia| |lia].
    right. exists p2, (E + 1). replace (E + 1 <=? emax - prec) with true by lia.
    split; [done|]. destruct (Z.eq_dec (E + 1) e) as [HEe|]; [right|lia].
    split; [done|]. rewrite <- Hp2.
    assert (2 ^ prec = 2 * 2 ^ (prec - 1)) as Hpow.
    { replace prec with (1 + (prec - 1)) at 1 by lia. now rewrite Z.pow_add_r by lia. }
    unfold N in Hm1N. replace (e - E) with 1 in Hm1N by lia. change (2 ^ 1) with 2 in Hm1N. lia.
Qed.

(** Rounding a value that a number of the format bounds from below stays
    above that number. *)
Lemma binary_round_ge s my ey m e :
  canonical_mantissa prec emax m e = true ->
  ey <= e -> Zpos m * 2 ^ (e - ey) <= Zpos my ->
  binary_round prec emax s my ey = S754_infinity s \/
  exists m2 e2, binary_round prec emax s my ey = S754_finite s m2 e2 /\
    (e < e2 \/ (e2 = e /\ Zpos m <= Zpos m2)).
Proof.
  intros (He & Hdm & Hemin)%canonical_mantissa_spec Hey Hle.
  pose proof (digits2_bounds m) as [Hmlo _].
  set (dm := Zpos (digits2_pos m)) in *.
  assert (0 < dm) as Hdmpos by (unfold dm; lia).
  assert (0 < 2 ^ (e - ey)) by (apply Z.pow_pos_nonneg; lia).
  assert (dm + e <= Zpos (digits2_pos my) + ey) as Hd.
  { assert (dm - 1 + (e - ey) < Zpos (digits2_pos my)); [|lia].
    apply digits2_ge_of_ge. rewrite Z.pow_add_r by lia. nia. }
  destruct (binary_round_spec s my ey _ _ _ _ eq_refl eq_refl eq_refl eq_refl)
    as (m1 & m2 & e2 & Hm1 & _ & _ & Hnormal & Hcases & ->).
  set (d := Zpos (digits2_pos my)) in *.
  set (E := fexp (d + ey)) in *.
  assert (e <= E) as HE by (rewrite He; apply fexp_mono; lia).
  replace (Z.min ey E) with ey in * by lia.
  rewrite Z.sub_diag in *. change (2 ^ 0) with 1 in *. rewrite Z.mul_1_r in *.
  set (n := E - ey) in *.
  assert (0 < 2 ^ n) by (apply Z.pow_pos_nonneg; unfold n; lia).
  assert (0 < 2 ^ (prec - 1)) as Hp by (apply Z.pow_pos_nonneg; lia).
  assert (0 < m1 /\ (E = e -> Zpos m <= m1)) as [Hm1pos Hm1m].
  { destruct (Z.eq_dec E e) as [HEe|HEe].
    - assert (Zpos m <= Zpos my / 2 ^ n); [|lia].
      apply Z.div_le_lower_bound; [done|]. unfold n. rewrite HEe. lia.
    - split; [|done]. assert (emin < E) as Hgt by lia. specialize (Hnormal Hgt). lia. }
  unfold finite_or_infinity.
  destruct Hcases as [(Hsmall & -> & ->)|(Hbig & -> & ->)].
  - destruct m1 as [|p1|p1]; [lia| |lia].
    destruct (E <=? emax - prec); [right|auto].
    exists p1, E. split; [done|]. destruct (Z.eq_dec E e) as [HEe|]; [right|lia].
    split; [done|]. now apply Hm1m.
  - destruct (2 ^ (prec - 1)) as [|p2|p2] eqn:Hp2; [lia| |lia].
    destruct (E + 1 <=? emax - prec); [right|auto].
    exists p2, (E + 1). split; [done|]. left. lia.
Qed.

(** Rounding gives a number of the sign asked for, never NaN. *)
Lemma binary_round_sign s my ey :
  match binary_round prec emax s my ey with
  | S754_nan => False
  | S754_zero s' | S754_infinity s' | S754_finite s' _ _ => s' = s
  end.
Proof.
  destruct (binary_round_spec s my ey _ _ _ _ eq_refl eq_refl eq_refl eq_refl)
    as (m1 & m2 & e2 & Hm1 & _ & _ & _ & Hcases & ->).
  assert (0 <= m2).
  { assert (0 <= Zpos my * 2 ^ (ey - Z.min ey (fexp (Zpos (digits2_pos my) + ey)))
                 / 2 ^ (fexp (Zpos (digits2_pos my) + ey)
                        - Z.min ey (fexp (Zpos (digits2_pos my) + ey)))).
    { apply Z.div_pos; [|apply Z.pow_pos_nonneg; lia].
      assert (0 < 2 ^ (ey - Z.min ey (fexp (Zpos (digits2_pos my) + ey))))
        by (apply Z.pow_pos_nonneg; lia). lia. }
    assert (0 < 2 ^ (prec - 1)) by (apply Z.pow_pos_nonneg; lia).
    destruct Hcases as [(_ & -> & _)|(_ & -> & _)]; lia. }
  unfold finite_or_infinity. destruct m2 as [|p|p]; [done| |lia].
  now destruct (e2 <=? emax - prec).
Qed.

End Format.

(** Subtracting a positive number from [x] gives a number that [x] bounds. *)
Lemma SFsub_positive_le prec emax x mt et :
  0 < prec ->
  SpecFloat.valid_binary prec emax x = true -> x <> S754_nan ->
  SFleb (SFsub prec emax x (S754_finite false mt et)) x = true.
Proof.
  intros Hprec Hvalid Hnan. unfold SFleb.
  destruct x as [sx|sx| |sx m e]; [now destruct sx|now destruct sx|done|].
  simpl in Hvalid. unfold bounded in Hvalid.
  apply andb_true_iff in Hvalid as [Hcanon Hbound%Z.leb_le].
  unfold SFsub. set (ez := Z.min e et).
  destruct (shl_align_spec m e ez) as [_ Hmx].
  destruct (shl_align_spec mt et ez) as [_ Hmt].
  set (mx := fst (shl_align m e ez)) in *. set (mt' := fst (shl_align mt et ez)) in *.
  replace (Z.min e ez) with ez in Hmx by lia.
  destruct sx; simpl cond_Zopp.
  - change (- Z.pos mx - Z.pos mt') with (Z.neg (mx + mt')). simpl binary_normalize.
    destruct (binary_round_ge prec emax Hprec true (mx + mt') ez m e Hcanon)
      as [->|(m2 & e2 & -> & Hord)]; [unfold ez; lia|lia|done|].
    simpl. destruct Hord as [Hlt|[-> Hle]].
    + now rewrite (proj2 (Z.compare_gt_iff e2 e)) by lia.
    + rewrite Z.compare_refl. change (PosDef.Pos.compare_cont Eq) with Pos.compare.
      destruct (Pos.compare_spec m2 m); simpl; try done. lia.
  - destruct (Z.pos mx - Z.pos mt') as [|pz|pz] eqn:Hz; simpl binary_normalize.
    + reflexivity.
    + destruct (binary_round_le prec emax Hprec false pz ez m e Hcanon Hbound)
        as [->|(m2 & e2 & -> & Hord)]; [unfold ez; lia|lia|done|].
      simpl. destruct Hord as [Hlt|[-> Hle]].
      * now rewrite (proj2 (Z.compare_lt_iff e2 e)) by lia.
      * rewrite Z.compare_refl. change (PosDef.Pos.compare_cont Eq) with Pos.compare.
        destruct (Pos.compare_spec m2 m); simpl; try done. lia.
    + pose proof (binary_round_sign prec emax Hprec true pz ez) as Hsign.
      destruct (binary_round prec emax true pz ez) as [s'|s'| |s' ? ?];
        try done; now subst s'.
Qed.

(** [<] followed by [<=] is [<]. *)
Lemma SFltb_leb_trans a b c :
  SFltb a b = true -> SFleb b c = true -> SFltb a c = true.
Proof.
  unfold SFltb, SFleb.
  destruct a as [sa|sa| |sa ma ea], b as [sb|sb| |sb mb eb],
           c as [sc|sc| |sc mc ec]; simpl;
    try (destruct sa); try (destruct sb); try (destruct sc); simpl;
    try easy;
    change (PosDef.Pos.compare_cont Eq) with Pos.compare;
    destruct (Z.compare_spec ea eb), (Z.compare_spec eb ec),
             (Z.compare_spec ea ec); simpl; try easy; try lia;
    destruct (Pos.compare_spec ma mb), (Pos.compare_spec mb mc),
             (Pos.compare_spec ma mc); simpl; try easy; try lia.
Qed.

(** The rounded [p - 0.001] does not exceed [p]. *)
Lemma sub_tolerance_leb p :
  is_nan p = false -> (p - tolerance <=? p)%float = true.
Proof.
  intros Hp. rewrite FloatAxioms.leb_spec, FloatAxioms.sub_spec.
  change (Prim2SF tolerance) with (S754_finite false 4611686018427388 (-62)).
  apply SFsub_positive_le; [done|apply Prim2SF_valid|].
  now apply FloatFacts.is_nan_false.
Qed.

(** What is below the rounded [p - 0.001] is below [p]. *)
Lemma ltb_sub_tolerance x p :
  (x <? p - tolerance)%float = true -> (x <? p)%float = true.
Proof.
  intros Hlt. rewrite FloatAxioms.ltb_spec in *.
  apply SFltb_leb_trans with (Prim2SF (p - tolerance)); [done|].
  rewrite <- FloatAxioms.leb_spec. apply sub_tolerance_leb.
  destruct (is_nan p) eqn:Hp; [|done]. exfalso.
  apply FloatFacts.is_nan_spec in Hp.
  rewrite FloatAxioms.sub_spec, Hp in Hlt.
  unfold SFltb in Hlt. simpl in Hlt. now destruct (Prim2SF x).
Qed.

End Rounding.

(** ** Facts about the array operations *)

Section FindIndex.

Context {A : Type} (p : A -> bool).

Lemma findIndex_Some l i :
  JS.findIndex p l = Some i ->
  exists x, l !! i = Some x /\ p x = true /\
            forall j y, j < i -> l !! j = Some y -> p y = false.
Proof.
  revert i. induction l as [|y l IH]; intros i; simpl; [easy|].
  destruct (p y) eqn:Ey.
  - intros [= <-]. exists y. repeat split; auto. intros j z Hj. lia.
  - destruct (JS.findIndex p l) as [k|]; simpl; [|easy].
    intros [= <-]. destruct (IH k eq_refl) as (x & Hx & Hp & Hfirst).
    exists x. repeat split; auto.
    intros [|j] z Hj; simpl.
    + now intros [= <-].
    + apply Hfirst. lia.
Qed.

Lemma findIndex_None l :
  JS.findIndex p l = None <-> (forall x, x ∈ l -> p x = false).
Proof.
  induction l as [|y l IH]; simpl.
  - split; [|easy]. intros _ x Hx. now apply elem_of_nil in Hx.
  - destruct (p y) eqn:Ey.
    + split; [easy|]. intros H. rewrite H in Ey; [easy|]. apply elem_of_cons; auto.
    + destruct (JS.findIndex p l) as [k|] eqn:Ek; simpl.
      * split; [easy|]. intros H.
        assert (Some k = None) as Hk; [|easy].
        apply IH. intros x Hx. apply H, elem_of_cons. auto.
      * split; [|easy]. intros _ x [->|Hx]%elem_of_cons; [easy|].
        now apply IH.
Qed.

(** The first index at which [p] holds is the one [findIndex] answers. *)
Lemma findIndex_first l i x :
  l !! i = Some x -> p x = true ->
  (forall j y, j < i -> l !! j = Some y -> p y = false) ->
  JS.findIndex p l = Some i.
Proof.
  intros Hx Hp Hfirst.
  destruct (JS.findIndex p l) as [k|] eqn:Ek.
  - destruct (findIndex_Some _ _ Ek) as (y & Hy & Hpy & Hk).
    destruct (Nat.lt_trichotomy k i) as [Hlt|[->|Hgt]]; [|done|].
    + rewrite (Hfirst _ _ Hlt Hy) in Hpy. easy.
    + rewrite (Hk _ _ Hgt Hx) in Hp. easy.
  - rewrite findIndex_None in Ek. rewrite Ek in Hp; [easy|].
    eapply list_elem_of_lookup_2; eauto.
Qed.

End FindIndex.

Lemma imap_lookup_id {A : Type} (f : nat -> A -> A) (l : list A) :
  (forall i x, l !! i = Some x -> f i x = x) -> imap f l = l.
Proof.
  intros H. apply list_eq. intros i. rewrite list_lookup_imap.
  destruct (l !! i) as [x|] eqn:E; simpl; [|done]. now rewrite (H _ _ E).
Qed.

Lemma fmap_lookup_id {A : Type} (f : A -> A) (l : list A) :
  (forall x, x ∈ l -> f x = x) -> f <$> l = l.
Proof.
  intros H. induction l as [|y l IH]; simpl; [done|].
  rewrite H by (apply elem_of_cons; auto). f_equal.
  apply IH. intros x Hx. apply H, elem_of_cons. auto.
Qed.

(** ** What [updateDimension] computes *)

Lemma propagate_dimensions newValue dimIndex oldDim s j :
  dimensions s !! dimIndex = Some oldDim ->
  dimensions (propagate newValue dimIndex oldDim s) !! j =
    if decide (j = dimIndex) then Some (resized newValue oldDim)
    else stepDimension dimIndex (Dimension.end_ oldDim)
           (newValue - Dimension.value oldDim)%float j <$> dimensions s !! j.
Proof.
  intros Hold. unfold propagate; simpl. rewrite list_lookup_imap.
  apply lookup_lt_Some in Hold as Hlt.
  destruct (decide (j = dimIndex)) as [->|Hne].
  - rewrite list_lookup_insert_eq by done. simpl.
    unfold stepDimension. now rewrite Nat.eqb_refl.
  - now rewrite list_lookup_insert_ne by done.
Qed.

Lemma propagate_nodes newValue dimIndex oldDim s :
  nodes (propagate newValue dimIndex oldDim s) =
    stepNode (Dimension.end_ oldDim) (newValue - Dimension.value oldDim)%float
      <$> nodes s.
Proof. reflexivity. Qed.

Lemma propagate_loads newValue dimIndex oldDim s :
  loads (propagate newValue dimIndex oldDim s) =
    stepLoad (Dimension.end_ oldDim) (newValue - Dimension.value oldDim)%float
      <$> loads s.
Proof. reflexivity. Qed.

Lemma propagate_totalLength newValue dimIndex oldDim s :
  totalLength (propagate newValue dimIndex oldDim s) =
    JS.Math_max
      (BeamNode.position <$> nodes (propagate newValue dimIndex oldDim s)).
Proof. reflexivity. Qed.

Section DimensionEdit.

Variables (r : AnalysisResult) (dimId : string) (newValue : float).
Variables (dimIndex : nat) (oldDim : Dimension.t).

(** [dimId] exists: [findIndex] answers [dimIndex], where [oldDim] sits. *)
Hypothesis Hindex :
  JS.findIndex (dimensionHasId dimId) (dimensions (structure r)) = Some dimIndex.
Hypothesis HoldDim : dimensions (structure r) !! dimIndex = Some oldDim.

Local Abbreviation pivot := (Dimension.end_ oldDim).
Local Abbreviation diff := (newValue - Dimension.value oldDim)%float.

Lemma updateDimension_found :
  updateDimension (Some r) dimId newValue =
    Some (mkResult (propagate newValue dimIndex oldDim (structure r))
            (latexCode r)).
Proof using Hindex HoldDim.
  unfold updateDimension. now rewrite Hindex, HoldDim.
Qed.

(** C2: every dimension but the edited one, and every node, is moved by
    [diff] when it starts at or after [pivot - 0.001], and is left as it
    was otherwise. *)
Theorem updateDimension_shifts_dimensions_and_nodes :
  exists r', updateDimension (Some r) dimId newValue = Some r' /\
    (forall j d, j <> dimIndex -> dimensions (structure r) !! j = Some d ->
       dimensions (structure r') !! j = Some
         (if (Dimension.start d >=? pivot - tolerance)%float
          then Dimension.mk (Dimension.id d)
                 (Dimension.start d + diff)%float (Dimension.end_ d + diff)%float
                 (Dimension.value d) (Dimension.unit d) (Dimension.symbol d)
                 (Dimension.yOffset d)
          else d)) /\
    (forall j n, nodes (structure r) !! j = Some n ->
       nodes (structure r') !! j = Some
         (if (BeamNode.position n >=? pivot - tolerance)%float
          then BeamNode.mk (BeamNode.id n) (BeamNode.label n)
                 (BeamNode.position n + diff)%float
                 (BeamNode.supportType n) (BeamNode.hasHinge n)
          else n)).
Proof using Hindex HoldDim.
  eexists. split; [apply updateDimension_found|]. cbn [structure]. split.
  - intros j d Hj Hd. rewrite propagate_dimensions by done.
    rewrite decide_False by done. rewrite Hd. simpl.
    unfold stepDimension. apply Nat.eqb_neq in Hj. now rewrite Hj.
  - intros j n Hn. rewrite propagate_nodes, list_lookup_fmap, Hn. reflexivity.
Qed.

(** C3: the edited dimension gets [value = newValue] and
    [end = start + newValue]; its [start] stays. *)
Theorem updateDimension_resizes_target :
  exists r' d', updateDimension (Some r) dimId newValue = Some r' /\
    dimensions (structure r') !! dimIndex = Some d' /\
    Dimension.value d' = newValue /\
    Dimension.end_ d' = (Dimension.start oldDim + newValue)%float /\
    Dimension.start d' = Dimension.start oldDim.
Proof using Hindex HoldDim.
  exists (mkResult (propagate newValue dimIndex oldDim (structure r)) (latexCode r)),
         (resized newValue oldDim).
  split; [apply updateDimension_found|]. cbn [structure].
  rewrite propagate_dimensions by done. rewrite decide_True by done. auto.
Qed.

End DimensionEdit.

(** The example of the specification: [L1] over [0, 10], node [A] and point
    load [P1] at 10; editing [L1] to 15 gives [L1] over [0, 15], [A] and
    [P1] at 15 and a total length of 15. *)
Example updateDimension_specification_example :
  updateDimension
    (Some (mkResult (mkStructure 10 [Example.A] [Example.P1] [Example.L1])
             Example.tikz)) "d1" 15 =
  Some (mkResult
          (mkStructure 15
             [BeamNode.mk "n1" "A" 15 (Some ROLLER) (Some false)]
             [BeamLoad.mk "l1" POINT 15 15 5 "k" "P1" DOWN]
             [Dimension.mk "d1" 0 15 15 "ft" "L1" None])
          Example.tikz).
Proof. reflexivity. Qed.

(** Editing [L1] from 10 to 15 in the example: [L2] moves to [15, 19],
    node [A] to 15 and node [O] stays at 0. *)
Lemma updateDimension_shifts_dimensions_and_nodes_witness :
  JS.findIndex (dimensionHasId "d1") (dimensions (structure Example.result)) = Some 0 /\
  dimensions (structure Example.result) !! 0 = Some Example.L1 /\
  exists r', updateDimension (Some Example.result) "d1" 15 = Some r' /\
    dimensions (structure r') !! 1 = Some (Dimension.mk "d2" 15 19 4 "ft" "L2" None) /\
    nodes (structure r') !! 1 = Some (BeamNode.mk "n1" "A" 15 (Some ROLLER) (Some false)) /\
    nodes (structure r') !! 0 = Some Example.O.
Proof.
  split; [reflexivity|]. split; [reflexivity|].
  destruct (updateDimension_shifts_dimensions_and_nodes
              Example.result "d1" 15 0 Example.L1 eq_refl eq_refl)
    as (r' & Hr' & Hdims & Hnodes).
  exists r'. split; [exact Hr'|].
  rewrite (Hdims 1 Example.L2) by (reflexivity || lia).
  rewrite (Hnodes 1 Example.A), (Hnodes 0 Example.O) by reflexivity.
  repeat split; reflexivity.
Defined.

(** Editing [L1] from 10 to 15 in the example gives [L1] over [0, 15]. *)
Lemma updateDimension_resizes_target_witness :
  JS.findIndex (dimensionHasId "d1") (dimensions (structure Example.result)) = Some 0 /\
  dimensions (structure Example.result) !! 0 = Some Example.L1 /\
  exists r' d', updateDimension (Some Example.result) "d1" 15 = Some r' /\
    dimensions (structure r') !! 0 = Some d' /\
    Dimension.value d' = 15%float /\ Dimension.end_ d' = 15%float /\
    Dimension.start d' = 0%float.
Proof.
  split; [reflexivity|]. split; [reflexivity|].
  destruct (updateDimension_resizes_target
              Example.result "d1" 15 0 Example.L1 eq_refl eq_refl)
    as (r' & d' & Hr' & Hd' & Hvalue & Hend & Hstart).
  exists r', d'. repeat split; assumption.
Defined.

(** C5: with an identifier that no dimension carries, [updateDimension]
    leaves the state as it is: the same structure, no error. *)
Theorem updateDimension_unknown_id r dimId newValue :
  (forall d, d ∈ dimensions (structure r) -> Dimension.id d <> dimId) ->
  updateDimension (Some r) dimId newValue = Some r.
Proof.
  intros Habsent. unfold updateDimension.
  assert (JS.findIndex (dimensionHasId dimId) (dimensions (structure r)) = None)
    as ->; [|reflexivity].
  apply findIndex_None. intros d Hd. apply String.eqb_neq. now apply Habsent.
Qed.

Lemma updateDimension_unknown_id_witness :
  (forall d, d ∈ dimensions (structure Example.result) -> Dimension.id d <> "d9") /\
  updateDimension (Some Example.result) "d9" 15 = Some Example.result.
Proof.
  assert (forall d, d ∈ dimensions (structure Example.result) ->
                    Dimension.id d <> "d9") as Habsent.
  { intros d Hd. simpl in Hd.
    apply elem_of_cons in Hd as [->|Hd]; [discriminate|].
    apply elem_of_cons in Hd as [->|Hd]; [discriminate|].
    now apply elem_of_nil in Hd. }
  split; [exact Habsent|].
  exact (updateDimension_unknown_id Example.result "d9" 15 Habsent).
Defined.

(** ** The shape of the structure *)

Lemma stepNode_data pivotX diff n : sameNodeData n (stepNode pivotX diff n).
Proof. unfold stepNode. now destruct (_ >=? _)%float. Qed.

Lemma stepLoad_data pivotX diff l : sameLoadData l (stepLoad pivotX diff l).
Proof.
  unfold stepLoad. destruct (_ >=? _)%float; [easy|]. now destruct (_ && _).
Qed.

Lemma stepDimension_data dimIndex pivotX diff i d :
  sameDimensionData d (stepDimension dimIndex pivotX diff i d).
Proof. unfold stepDimension. now destruct (_ && _). Qed.

(** C9: [updateDimension] keeps the number and the order of the nodes, loads
    and dimensions, and every field of theirs other than [position],
    [start], [end] and [value]. *)
Theorem updateDimension_preserves_shape r dimId newValue :
  exists r', updateDimension (Some r) dimId newValue = Some r' /\
    Forall2 sameNodeData (nodes (structure r)) (nodes (structure r')) /\
    Forall2 sameLoadData (loads (structure r)) (loads (structure r')) /\
    Forall2 sameDimensionData (dimensions (structure r)) (dimensions (structure r')).
Proof.
  unfold updateDimension.
  destruct (JS.findIndex _ _) as [dimIndex|] eqn:Hindex.
  2:{ exists r. repeat split; apply Forall_Forall2_diag, Forall_forall; easy. }
  destruct (findIndex_Some _ _ _ Hindex) as (oldDim & Hold & _).
  rewrite Hold. eexists. split; [reflexivity|]. cbn [structure].
  split; [|split].
  - rewrite propagate_nodes. apply Forall2_fmap_r, Forall_Forall2_diag, Forall_forall.
    intros n _. apply stepNode_data.
  - rewrite propagate_loads. apply Forall2_fmap_r, Forall_Forall2_diag, Forall_forall.
    intros l _. apply stepLoad_data.
  - apply Forall2_same_length_lookup_2.
    + unfold propagate; cbn [dimensions].
      now rewrite length_imap, length_insert.
    + intros j d d' Hd. rewrite propagate_dimensions by done.
      destruct (decide (j = dimIndex)) as [->|Hne].
      * intros [= <-]. rewrite Hold in Hd. injection Hd as <-. easy.
      * rewrite Hd. intros [= <-]. apply stepDimension_data.
Qed.

(** In the example the edit of [L1] to 15 keeps three nodes, three loads and
    two dimensions, in their order. *)
Lemma updateDimension_preserves_shape_witness :
  exists r', updateDimension (Some Example.result) "d1" 15 = Some r' /\
    BeamNode.id <$> nodes (structure r') = ["n0"; "n1"; "n2"] /\
    BeamLoad.id <$> loads (structure r') = ["l1"; "l2"; "l3"] /\
    Dimension.id <$> dimensions (structure r') = ["d1"; "d2"].
Proof.
  destruct (updateDimension_preserves_shape Example.result "d1" 15)
    as (r' & Hr' & Hnodes & Hloads & Hdims).
  exists r'. split; [exact Hr'|].
  injection Hr' as <-. repeat split; reflexivity.
Defined.

(** ** [Math.max] is a maximum *)

Lemma leb_neg_infinity x : (x <=? neg_infinity)%float = true -> x = neg_infinity.
Proof.
  rewrite FloatAxioms.leb_spec. change (Prim2SF neg_infinity) with (S754_infinity true).
  intros H. apply Prim2SF_inj. change (Prim2SF neg_infinity) with (S754_infinity true).
  destruct (Prim2SF x) as [[]|[]| |[] ? ?]; done.
Qed.

Lemma Math_max_loop_spec coerced : forall highest,
  is_nan highest = false ->
  Forall (fun x => is_nan x = false) coerced ->
  let m := JS.Math_max_loop highest coerced in
  (m = highest \/ m ∈ coerced) /\
  (highest <=? m)%float = true /\
  Forall (fun x => (x <=? m)%float = true) coerced.
Proof.
  induction coerced as [|x rest IH]; intros highest Hh Hall; simpl.
  - repeat split; auto. now apply FloatFacts.leb_refl.
  - apply Forall_cons in Hall as [Hx Hrest]. rewrite Hx.
    destruct (IH x Hx Hrest) as (Hin & Hle & Hothers).
    assert (forall m, m = x \/ m ∈ rest -> m = highest \/ m ∈ x :: rest) as Hmem.
    { intros m [->|Hm]; right; apply elem_of_cons; auto. }
    destruct (JS.is_pos_zero x && JS.is_neg_zero highest) eqn:Ezero.
    { apply andb_true_iff in Ezero as [Ex Ehi].
      apply FloatAxioms.Leibniz.eqb_spec in Ex, Ehi. subst x highest.
      split; [auto|]. split; [|now apply Forall_cons].
      now apply FloatFacts.leb_trans with zero. }
    destruct (highest <? x)%float eqn:Elt.
    { split; [auto|]. split; [|now apply Forall_cons].
      apply FloatFacts.leb_trans with x; [now apply FloatFacts.ltb_leb|done]. }
    destruct (IH highest Hh Hrest) as (Hin' & Hle' & Hothers').
    split; [|split; [done|]].
    + destruct Hin' as [Hm|Hm]; [left; exact Hm|right; apply elem_of_cons; auto].
    + apply Forall_cons. split; [|done].
      apply FloatFacts.leb_trans with highest; [|done].
      now apply FloatFacts.ltb_false_leb.
Qed.

(** On a non-empty list without NaN, [Math.max] answers an element of the
    list that no element exceeds. *)
Lemma Math_max_spec coerced :
  coerced <> [] -> Forall (fun x => is_nan x = false) coerced ->
  JS.Math_max coerced ∈ coerced /\
  Forall (fun x => (x <=? JS.Math_max coerced)%float = true) coerced.
Proof.
  intros Hne Hall.
  destruct (Math_max_loop_spec coerced neg_infinity eq_refl Hall)
    as (Hin & _ & Hothers).
  split; [|exact Hothers].
  destruct Hin as [Hm|Hm]; [|exact Hm].
  destruct coerced as [|x rest]; [done|].
  apply Forall_cons in Hothers as [Hx _]. unfold JS.Math_max.
  rewrite Hm in Hx. apply leb_neg_infinity in Hx. rewrite Hm, <- Hx.
  apply elem_of_cons. auto.
Qed.

Section TotalLength.

Variables (r : AnalysisResult) (dimId : string) (newValue : float).
Variables (dimIndex : nat).
Hypothesis Hindex :
  JS.findIndex (dimensionHasId dimId) (dimensions (structure r)) = Some dimIndex.

(** C4: after an edit [totalLength] is [Math.max] of the positions of the
    nodes of the result; when there is a node and no position is NaN, it
    is the position of a node, and no node lies beyond it. *)
Theorem updateDimension_totalLength :
  exists r', updateDimension (Some r) dimId newValue = Some r' /\
    let positions := BeamNode.position <$> nodes (structure r') in
    totalLength (structure r') = JS.Math_max positions /\
    (positions <> [] -> Forall (fun x => is_nan x = false) positions ->
     totalLength (structure r') ∈ positions /\
     Forall (fun x => (x <=? totalLength (structure r'))%float = true) positions).
Proof using Hindex.
  destruct (findIndex_Some _ _ _ Hindex) as (oldDim & Hold & _).
  eexists. split; [exact (updateDimension_found _ _ _ _ _ Hindex Hold)|].
  cbn [structure].
  split; [apply propagate_totalLength|].
  rewrite propagate_totalLength. apply Math_max_spec.
Qed.

(** C10: when the structure has no node, the edit sets [totalLength] to
    [-Infinity], [Math.max] of no argument, whatever it was before. *)
Theorem updateDimension_no_nodes :
  nodes (structure r) = [] ->
  exists r', updateDimension (Some r) dimId newValue = Some r' /\
    totalLength (structure r') = neg_infinity /\
    (totalLength (structure r) <> neg_infinity ->
     totalLength (structure r') <> totalLength (structure r)).
Proof using Hindex.
  intros Hnodes.
  destruct (findIndex_Some _ _ _ Hindex) as (oldDim & Hold & _).
  eexists. split; [exact (updateDimension_found _ _ _ _ _ Hindex Hold)|].
  cbn [structure].
  rewrite propagate_totalLength, propagate_nodes, Hnodes.
  split; [reflexivity|]. intros Hne Heq. apply Hne. now rewrite <- Heq.
Qed.

End TotalLength.

(** In the example the edit of [L1] to 15 gives [totalLength = 19], the
    position of [B]. *)
Lemma updateDimension_totalLength_witness :
  JS.findIndex (dimensionHasId "d1") (dimensions (structure Example.result)) = Some 0 /\
  exists r', updateDimension (Some Example.result) "d1" 15 = Some r' /\
    totalLength (structure r') = 19%float /\
    JS.Math_max (BeamNode.position <$> nodes (structure r')) = 19%float.
Proof.
  split; [reflexivity|].
  destruct (updateDimension_totalLength Example.result "d1" 15 0 eq_refl)
    as (r' & Hr' & Htotal & _).
  exists r'. split; [exact Hr'|]. rewrite Htotal.
  injection Hr' as <-. split; reflexivity.
Defined.

(** A beam of length 10 with the single dimension [L1] and no node: the edit
    replaces the length by [-Infinity]. *)
Lemma updateDimension_no_nodes_witness :
  let r := mkResult (mkStructure 10 [] [] [Example.L1]) Example.tikz in
  nodes (structure r) = [] /\
  JS.findIndex (dimensionHasId "d1") (dimensions (structure r)) = Some 0 /\
  exists r', updateDimension (Some r) "d1" 15 = Some r' /\
    totalLength (structure r') = neg_infinity /\
    totalLength (structure r') <> totalLength (structure r).
Proof.
  intros r. split; [reflexivity|]. split; [reflexivity|].
  destruct (updateDimension_no_nodes r "d1" 15 0 eq_refl eq_refl)
    as (r' & Hr' & Htotal & Hchanged).
  exists r'. repeat split; try assumption.
  apply Hchanged. simpl. intros H.
  apply (f_equal (fun x => (x =? 10)%float)) in H. discriminate H.
Defined.

(** ** Loads *)

Lemma stepLoad_loadRule pivot diff l : stepLoad pivot diff l = loadRule pivot diff l.
Proof.
  unfold stepLoad, loadRule. destruct (_ >=? _)%float; [reflexivity|].
  now destruct (_ && _).
Qed.

(** The two rules agree on a load as soon as the failed first test entails
    [start < pivot]. *)
Lemma loadRule_as_stated pivot diff l :
  ((BeamLoad.start l >=? pivot - tolerance)%float = false ->
   (BeamLoad.end_ l >=? pivot - tolerance)%float = true ->
   (BeamLoad.start l <? pivot)%float = true) ->
  loadRule pivot diff l = loadRuleAsStated pivot diff l.
Proof.
  unfold loadRule, loadRuleAsStated. intros H.
  destruct (BeamLoad.start l >=? _)%float; [reflexivity|].
  destruct (BeamLoad.end_ l >=? _)%float; [|reflexivity].
  now rewrite H.
Qed.

(** It does whenever [start] is a Number: the rounded [pivot - 0.001] does
    not exceed [pivot].  The rules part on loads whose [start] is NaN
    only. *)
Lemma loadRule_as_stated_of_number pivot diff l :
  is_nan (BeamLoad.start l) = false ->
  loadRule pivot diff l = loadRuleAsStated pivot diff l.
Proof.
  intros Hstart. apply loadRule_as_stated. intros Hbelow Hend.
  apply Rounding.ltb_sub_tolerance.
  apply FloatFacts.geb_true_number in Hend as [_ Hbound].
  now apply FloatFacts.geb_false_ltb.
Qed.

Section LoadsOfEdit.

Variables (r : AnalysisResult) (dimId : string) (newValue : float).
Variables (dimIndex : nat) (oldDim : Dimension.t).
Hypothesis Hindex :
  JS.findIndex (dimensionHasId dimId) (dimensions (structure r)) = Some dimIndex.
Hypothesis HoldDim : dimensions (structure r) !! dimIndex = Some oldDim.

Local Abbreviation pivot := (Dimension.end_ oldDim).
Local Abbreviation diff := (newValue - Dimension.value oldDim)%float.

(** The loads of the result by the tests of the source, whatever the loads
    hold: the second case also asks for [start < pivot]. *)
Lemma updateDimension_loads_of_source :
  exists r', updateDimension (Some r) dimId newValue = Some r' /\
    length (loads (structure r')) = length (loads (structure r)) /\
    forall j l, loads (structure r) !! j = Some l ->
      loads (structure r') !! j = Some
        (if (BeamLoad.start l >=? pivot - tolerance)%float
         then BeamLoad.mk (BeamLoad.id l) (BeamLoad.type_ l)
                (BeamLoad.start l + diff)%float (BeamLoad.end_ l + diff)%float
                (BeamLoad.magnitude l) (BeamLoad.unit l) (BeamLoad.symbol l)
                (BeamLoad.direction l)
         else if (BeamLoad.end_ l >=? pivot - tolerance)%float
                 && (BeamLoad.start l <? pivot)%float
         then BeamLoad.mk (BeamLoad.id l) (BeamLoad.type_ l)
                (BeamLoad.start l) (BeamLoad.end_ l + diff)%float
                (BeamLoad.magnitude l) (BeamLoad.unit l) (BeamLoad.symbol l)
                (BeamLoad.direction l)
         else l).
Proof using Hindex HoldDim.
  eexists. split; [exact (updateDimension_found _ _ _ _ _ Hindex HoldDim)|].
  cbn [structure]. rewrite propagate_loads. split; [apply length_fmap|].
  intros j l Hl. rewrite list_lookup_fmap, Hl. simpl.
  now rewrite stepLoad_loadRule.
Qed.

(** C1: each load falls in exactly one of three cases.  If
    [start >= pivot - 0.001], both [start] and [end] move by [diff]; else
    if [end >= pivot - 0.001], [start] stays and [end] moves by [diff];
    otherwise the load is left as it was.  The loads are those the program
    receives: JSON holds no NaN, so [start] is a Number. *)
Theorem updateDimension_loads :
  exists r', updateDimension (Some r) dimId newValue = Some r' /\
    length (loads (structure r')) = length (loads (structure r)) /\
    forall j l, loads (structure r) !! j = Some l ->
      is_nan (BeamLoad.start l) = false ->
      loads (structure r') !! j = Some
        (if (BeamLoad.start l >=? pivot - tolerance)%float
         then BeamLoad.mk (BeamLoad.id l) (BeamLoad.type_ l)
                (BeamLoad.start l + diff)%float (BeamLoad.end_ l + diff)%float
                (BeamLoad.magnitude l) (BeamLoad.unit l) (BeamLoad.symbol l)
                (BeamLoad.direction l)
         else if (BeamLoad.end_ l >=? pivot - tolerance)%float
         then BeamLoad.mk (BeamLoad.id l) (BeamLoad.type_ l)
                (BeamLoad.start l) (BeamLoad.end_ l + diff)%float
                (BeamLoad.magnitude l) (BeamLoad.unit l) (BeamLoad.symbol l)
                (BeamLoad.direction l)
         else l).
Proof using Hindex HoldDim.
  eexists. split; [exact (updateDimension_found _ _ _ _ _ Hindex HoldDim)|].
  cbn [structure]. rewrite propagate_loads. split; [apply length_fmap|].
  intros j l Hl Hstart. rewrite list_lookup_fmap, Hl. simpl. f_equal.
  rewrite stepLoad_loadRule, loadRule_as_stated_of_number by exact Hstart.
  reflexivity.
Qed.

End LoadsOfEdit.

(** When no load starts at NaN the loads of the result are those of the
    rule as stated. *)
Lemma updateDimension_loads_as_stated_of_numbers r dimId newValue dimIndex oldDim :
  JS.findIndex (dimensionHasId dimId) (dimensions (structure r)) = Some dimIndex ->
  dimensions (structure r) !! dimIndex = Some oldDim ->
  Forall (fun l => is_nan (BeamLoad.start l) = false) (loads (structure r)) ->
  exists r', updateDimension (Some r) dimId newValue = Some r' /\
    loads (structure r') =
      loadRuleAsStated (Dimension.end_ oldDim)
        (newValue - Dimension.value oldDim)%float <$> loads (structure r).
Proof.
  intros Hindex Hold Hnumbers.
  eexists. split; [exact (updateDimension_found _ _ _ _ _ Hindex Hold)|].
  cbn [structure]. rewrite propagate_loads. apply list_fmap_ext.
  intros j l Hl. rewrite stepLoad_loadRule. apply loadRule_as_stated_of_number.
  rewrite Forall_forall in Hnumbers. apply Hnumbers.
  eapply list_elem_of_lookup_2; eauto.
Qed.

(** In the example the edit of [L1] to 15 moves the point load [P1] to 15,
    stretches the distributed load [w] to [0, 19] and leaves [P0] at 4. *)
Lemma updateDimension_loads_witness :
  JS.findIndex (dimensionHasId "d1") (dimensions (structure Example.result)) = Some 0 /\
  dimensions (structure Example.result) !! 0 = Some Example.L1 /\
  exists r', updateDimension (Some Example.result) "d1" 15 = Some r' /\
    length (loads (structure r')) = 3 /\
    loads (structure r') !! 0 = Some (BeamLoad.mk "l1" POINT 15 15 5 "k" "P1" DOWN) /\
    loads (structure r') !! 1 =
      Some (BeamLoad.mk "l2" DISTRIBUTED 0 19 2 "k/ft" "w" DOWN) /\
    loads (structure r') !! 2 = Some Example.P0.
Proof.
  split; [reflexivity|]. split; [reflexivity|].
  destruct (updateDimension_loads Example.result "d1" 15 0 Example.L1 eq_refl eq_refl)
    as (r' & Hr' & Hlen & Hloads).
  exists r'. split; [exact Hr'|]. split; [exact Hlen|].
  rewrite (Hloads 0 Example.P1 eq_refl eq_refl), (Hloads 1 Example.w eq_refl eq_refl),
    (Hloads 2 Example.P0 eq_refl eq_refl).
  repeat split; reflexivity.
Defined.

(** The rule is about Numbers: were a load to start at NaN, with
    [pivot = 10] and [end = 10], the three cases would move [end] to 15, and
    the source, whose second case also asks for [start < pivot], leaves the
    load alone. *)
Lemma updateDimension_loads_start_NaN :
  let unplaced := BeamLoad.mk "l4" POINT nan 10 1 "k" "P2" DOWN in
  let r := mkResult (mkStructure 10 [Example.A] [unplaced] [Example.L1]) Example.tikz in
  exists r', updateDimension (Some r) "d1" 15 = Some r' /\
    loads (structure r') = [unplaced] /\
    loads (structure r') <> loadRuleAsStated 10 (15 - 10) <$> loads (structure r).
Proof.
  intros unplaced r. eexists. split; [reflexivity|]. split; [reflexivity|].
  told_apart_by (fun ls : list BeamLoad.t =>
                   match ls with
                   | l :: _ => (BeamLoad.end_ l =? 10)%float
                   | [] => false
                   end).
Qed.

(** ** What an edit leaves alone *)

Section Frame.

Variables (r : AnalysisResult) (dimId : string) (newValue : float).
Variables (dimIndex : nat) (oldDim : Dimension.t).
Hypothesis Hindex :
  JS.findIndex (dimensionHasId dimId) (dimensions (structure r)) = Some dimIndex.
Hypothesis HoldDim : dimensions (structure r) !! dimIndex = Some oldDim.

Local Abbreviation pivot := (Dimension.end_ oldDim).

(** C7, amended: an edit leaves unchanged all geometry strictly before
    [pivot - 0.001]: the nodes with [position < pivot - 0.001], the loads
    with [start] and [end] below [pivot - 0.001], and the dimensions other
    than the edited one with [start < pivot - 0.001]. *)
Theorem updateDimension_frame :
  exists r', updateDimension (Some r) dimId newValue = Some r' /\
    unchangedBefore (pivot - tolerance)%float dimIndex (structure r) (structure r').
Proof using Hindex HoldDim.
  eexists. split; [exact (updateDimension_found _ _ _ _ _ Hindex HoldDim)|].
  cbn [structure]. split; [|split].
  - intros j n Hn Hlt. rewrite propagate_nodes, list_lookup_fmap, Hn. simpl.
    unfold stepNode. now rewrite (FloatFacts.ltb_geb_false _ _ Hlt).
  - intros j l Hl Hstart Hend.
    rewrite propagate_loads, list_lookup_fmap, Hl. simpl. unfold stepLoad.
    now rewrite (FloatFacts.ltb_geb_false _ _ Hstart),
      (FloatFacts.ltb_geb_false _ _ Hend).
  - intros j d Hj Hd Hlt. rewrite propagate_dimensions by done.
    rewrite decide_False by done. rewrite Hd. simpl. unfold stepDimension.
    now rewrite (FloatFacts.ltb_geb_false _ _ Hlt), andb_false_r.
Qed.

End Frame.

(** In that beam the edit of [L1] to 15 leaves node [O] and load [P0], which
    lie before [10 - 0.001], where they were. *)
Lemma updateDimension_frame_witness :
  JS.findIndex (dimensionHasId "d1") (dimensions (structure NearPivot.result)) = Some 0 /\
  dimensions (structure NearPivot.result) !! 0 = Some Example.L1 /\
  exists r', updateDimension (Some NearPivot.result) "d1" 15 = Some r' /\
    nodes (structure r') !! 0 = Some Example.O /\
    loads (structure r') !! 1 = Some Example.P0.
Proof.
  split; [reflexivity|]. split; [reflexivity|].
  destruct (updateDimension_frame NearPivot.result "d1" 15 0 Example.L1 eq_refl eq_refl)
    as (r' & Hr' & Hnodes & Hloads & _).
  exists r'. split; [exact Hr'|]. split.
  - apply Hnodes; reflexivity.
  - apply Hloads; reflexivity.
Defined.

(** C7 as stated fails: node [N], strictly before the pivot 10 and within
    0.001 of it, is moved by the edit of [L1] to 15; so are the end of load
    [q] and dimension [G]. *)
Lemma updateDimension_frame_as_stated_fails :
  exists r', updateDimension (Some NearPivot.result) "d1" 15 = Some r' /\
    (BeamNode.position NearPivot.N <? Dimension.end_ Example.L1)%float = true /\
    nodes (structure r') !! 1 <> Some NearPivot.N /\
    loads (structure r') !! 0 <> Some NearPivot.q /\
    dimensions (structure r') !! 1 <> Some NearPivot.G /\
    ~ unchangedBeforePivotAsStated (Dimension.end_ Example.L1) 0
        (structure NearPivot.result) (structure r').
Proof.
  eexists. split; [reflexivity|]. split; [reflexivity|].
  assert (nodes (propagate 15 0 Example.L1 NearPivot.beam) !! 1
          <> Some NearPivot.N) as Hnode.
  { told_apart_by (fun o : option BeamNode.t =>
                     match o with
                     | Some n => (BeamNode.position n <? 10)%float
                     | None => false
                     end). }
  split; [exact Hnode|]. split; [|split].
  - told_apart_by (fun o : option BeamLoad.t =>
                     match o with
                     | Some l => (BeamLoad.end_ l <? 10)%float
                     | None => false
                     end).
  - told_apart_by (fun o : option Dimension.t =>
                     match o with
                     | Some d => (Dimension.start d <? 10)%float
                     | None => false
                     end).
  - intros (Hnodes & _). apply Hnode. apply Hnodes; reflexivity.
Qed.

(** A load given from right to left, its [end] well before the pivot and its
    [start] after it, is moved: the bound on [start] cannot be dropped. *)
Lemma stepLoad_reversed_load_moves :
  let l := BeamLoad.mk "l6" DISTRIBUTED 12 5 2 "k/ft" "v" DOWN in
  (BeamLoad.end_ l <? 10 - tolerance)%float = true /\
  stepLoad 10 5 l = BeamLoad.mk "l6" DISTRIBUTED 17 10 2 "k/ft" "v" DOWN.
Proof. split; reflexivity. Qed.

(** ** An edit that keeps the value *)

Lemma stepNode_zero pivotX n :
  BeamNode.position n <> neg_zero -> stepNode pivotX zero n = n.
Proof.
  intros H. unfold stepNode. destruct (_ >=? _)%float; [|reflexivity].
  rewrite FloatFacts.add_zero_r by done. now destruct n.
Qed.

Lemma stepLoad_zero pivotX l :
  BeamLoad.start l <> neg_zero -> BeamLoad.end_ l <> neg_zero ->
  stepLoad pivotX zero l = l.
Proof.
  intros Hs He. unfold stepLoad.
  rewrite !FloatFacts.add_zero_r by done.
  destruct (_ >=? _)%float; [now destruct l|].
  destruct (_ && _); [now destruct l|reflexivity].
Qed.

Lemma stepDimension_zero dimIndex pivotX i d :
  Dimension.start d <> neg_zero -> Dimension.end_ d <> neg_zero ->
  stepDimension dimIndex pivotX zero i d = d.
Proof.
  intros Hs He. unfold stepDimension. destruct (_ && _); [|reflexivity].
  rewrite !FloatFacts.add_zero_r by done. now destruct d.
Qed.

Section SameValue.

Variables (r : AnalysisResult) (dimId : string).
Variables (dimIndex : nat) (oldDim : Dimension.t).
Hypothesis Hindex :
  JS.findIndex (dimensionHasId dimId) (dimensions (structure r)) = Some dimIndex.
Hypothesis HoldDim : dimensions (structure r) !! dimIndex = Some oldDim.

(** C6, amended: an edit to the current value gives back the input
    structure when the edited dimension has a finite value and
    [end = start + value], [totalLength] is [Math.max] of the node
    positions, and no coordinate is [-0]. *)
Theorem updateDimension_same_value :
  is_finite (Dimension.value oldDim) = true ->
  Dimension.end_ oldDim = (Dimension.start oldDim + Dimension.value oldDim)%float ->
  totalLength (structure r) =
    JS.Math_max (BeamNode.position <$> nodes (structure r)) ->
  noNegativeZero (structure r) ->
  updateDimension (Some r) dimId (Dimension.value oldDim) = Some r.
Proof using Hindex HoldDim.
  intros Hfinite Hend Htotal (Hnodes & Hloads & Hdims).
  rewrite (updateDimension_found _ _ _ _ _ Hindex HoldDim).
  destruct r as [s latex]. cbn [structure latexCode] in *. f_equal. f_equal.
  assert (resized (Dimension.value oldDim) oldDim = oldDim) as Hresized.
  { unfold resized. rewrite <- Hend. now destruct oldDim. }
  assert (stepNode (Dimension.end_ oldDim) zero <$> nodes s = nodes s) as Hn.
  { apply fmap_lookup_id. intros n Hn. apply stepNode_zero.
    rewrite Forall_forall in Hnodes. now apply Hnodes. }
  unfold propagate. rewrite (FloatFacts.sub_diag _ Hfinite), Hresized, Hn.
  rewrite list_insert_id by done.
  rewrite <- Htotal. destruct s as [total ns ls ds]. cbn in *. f_equal.
  - apply fmap_lookup_id. intros l Hl. rewrite Forall_forall in Hloads.
    destruct (Hloads l Hl). now apply stepLoad_zero.
  - apply imap_lookup_id. intros i d Hd. rewrite Forall_forall in Hdims.
    destruct (Hdims d) as [Hs He]; [eapply list_elem_of_lookup_2; eauto|].
    now apply stepDimension_zero.
Qed.

End SameValue.

Lemma Example_noNegativeZero : noNegativeZero Example.beam.
Proof.
  assert (forall x : float, JS.is_neg_zero x = false -> x <> neg_zero) as Hnz.
  { intros x Hx ->. discriminate Hx. }
  repeat split; repeat (apply List.Forall_cons; [try split|]);
    try apply List.Forall_nil; apply Hnz; reflexivity.
Qed.

(** In the example, editing [L1] to its current value 10 changes nothing. *)
Lemma updateDimension_same_value_witness :
  JS.findIndex (dimensionHasId "d1") (dimensions (structure Example.result)) = Some 0 /\
  dimensions (structure Example.result) !! 0 = Some Example.L1 /\
  is_finite (Dimension.value Example.L1) = true /\
  Dimension.end_ Example.L1 =
    (Dimension.start Example.L1 + Dimension.value Example.L1)%float /\
  totalLength (structure Example.result) =
    JS.Math_max (BeamNode.position <$> nodes (structure Example.result)) /\
  noNegativeZero (structure Example.result) /\
  updateDimension (Some Example.result) "d1" 10 = Some Example.result.
Proof.
  repeat (split; [reflexivity|]). split; [exact Example_noNegativeZero|].
  exact (updateDimension_same_value Example.result "d1" 0 Example.L1
           eq_refl eq_refl eq_refl eq_refl eq_refl Example_noNegativeZero).
Defined.

(** C6 as stated fails: a dimension drawn over [0, 10] and labelled with the
    value 5, in a structure whose [totalLength] is the last node position.
    Entering 5 again makes [diff] zero and yet moves the dimension's end
    to 5. *)
Lemma updateDimension_same_value_as_stated_fails :
  let d := Dimension.mk "d1" 0 10 5 "m" "L1" None in
  let r := mkResult (mkStructure 10 [Example.O; Example.A] [Example.P1] [d]) Example.tikz in
  JS.findIndex (dimensionHasId "d1") (dimensions (structure r)) = Some 0 /\
  dimensions (structure r) !! 0 = Some d /\
  (5 - Dimension.value d)%float = 0%float /\
  updateDimension (Some r) "d1" (Dimension.value d) =
    Some (mkResult
            (mkStructure 10 [Example.O; Example.A] [Example.P1]
               [Dimension.mk "d1" 0 5 5 "m" "L1" None]) Example.tikz) /\
  updateDimension (Some r) "d1" (Dimension.value d) <> Some r.
Proof.
  intros d r. repeat (split; [reflexivity|]).
  told_apart_by (fun o : option AnalysisResult =>
                   match o with
                   | Some (mkResult (mkStructure _ _ _ (d' :: _)) _) =>
                       (Dimension.end_ d' =? 5)%float
                   | _ => false
                   end).
Qed.

(** Each further condition of the amended C6 is needed: a [totalLength]
    that is not the last node position is recomputed; an infinite value makes
    [diff] NaN; a coordinate [-0] at the pivot comes back as [+0]. *)
Lemma updateDimension_same_value_conditions :
  (let r := mkResult (mkStructure 12 [Example.O; Example.A] [] [Example.L1]) Example.tikz in
   exists r', updateDimension (Some r) "d1" 10 = Some r' /\
     totalLength (structure r') = 10%float) /\
  (let d := Dimension.mk "d1" 0 infinity infinity "m" "L1" None in
   let a := BeamNode.mk "n1" "A" infinity None None in
   let r := mkResult (mkStructure infinity [a] [] [d]) Example.tikz in
   exists r', updateDimension (Some r) "d1" infinity = Some r' /\
     totalLength (structure r') = nan) /\
  (let d := Dimension.mk "d1" (-5) 0 5 "m" "L1" None in
   let a := BeamNode.mk "n1" "A" neg_zero None None in
   let r := mkResult (mkStructure neg_zero [a] [] [d]) Example.tikz in
   exists r', updateDimension (Some r) "d1" 5 = Some r' /\
     JS.is_neg_zero (totalLength (structure r)) = true /\
     JS.is_pos_zero (totalLength (structure r')) = true).
Proof.
  repeat split; eexists; repeat split; reflexivity.
Qed.

(** ** [updateLoad] *)

Lemma BeamLoad_get_set k v l : BeamLoad.get k (BeamLoad.set k v l) = v.
Proof. now destruct k. Qed.

Lemma BeamLoad_get_set_other k k' v l :
  k' <> k -> BeamLoad.get k' (BeamLoad.set k v l) = BeamLoad.get k' l.
Proof. destruct k, k'; intros H; try reflexivity; now elim H. Qed.

(** C8: [updateLoad] writes the one field named, in the first load carrying
    the identifier; the other fields of that load, the other loads, the
    nodes, the dimensions and [totalLength] stay; without a load carrying
    the identifier the state stays as it is. *)
Theorem updateLoad_frame r loadId field (value : BeamLoad.field field) :
  exists r', updateLoad (Some r) loadId field value = Some r' /\
    totalLength (structure r') = totalLength (structure r) /\
    nodes (structure r') = nodes (structure r) /\
    dimensions (structure r') = dimensions (structure r) /\
    latexCode r' = latexCode r /\
    ((forall l, l ∈ loads (structure r) -> BeamLoad.id l <> loadId) -> r' = r) /\
    (forall idx l,
       loads (structure r) !! idx = Some l -> BeamLoad.id l = loadId ->
       (forall j l0, j < idx -> loads (structure r) !! j = Some l0 ->
                     BeamLoad.id l0 <> loadId) ->
       length (loads (structure r')) = length (loads (structure r)) /\
       (forall j, j <> idx ->
                  loads (structure r') !! j = loads (structure r) !! j) /\
       exists l', loads (structure r') !! idx = Some l' /\
         BeamLoad.get field l' = value /\
         forall k, k <> field -> BeamLoad.get k l' = BeamLoad.get k l).
Proof.
  unfold updateLoad.
  destruct (JS.findIndex _ _) as [idx0|] eqn:Hfind.
  - destruct (findIndex_Some _ _ _ Hfind) as (l0 & Hl0 & Hid0 & Hfirst0).
    rewrite Hl0. eexists. split; [reflexivity|]. cbn [structure latexCode
      totalLength nodes dimensions loads]. do 4 (split; [reflexivity|]).
    split.
    + intros Habsent. apply String.eqb_eq in Hid0.
      elim (Habsent l0); [eapply list_elem_of_lookup_2; eauto|done].
    + intros idx l Hl Hid Hfirst.
      assert (JS.findIndex (loadHasId loadId) (loads (structure r)) = Some idx)
        as Hidx.
      { apply (findIndex_first _ _ _ l Hl); [now apply String.eqb_eq|].
        intros j y Hj Hy. apply String.eqb_neq. exact (Hfirst j y Hj Hy). }
      rewrite Hfind in Hidx. injection Hidx as ->.
      rewrite Hl0 in Hl. injection Hl as ->.
      apply lookup_lt_Some in Hl0 as Hlt.
      split; [apply length_insert|]. split.
      * intros j Hj. now apply list_lookup_insert_ne.
      * exists (BeamLoad.set field value l).
        split; [now apply list_lookup_insert_eq|].
        split; [apply BeamLoad_get_set|]. intros k Hk.
        now apply BeamLoad_get_set_other.
  - exists r. do 5 (split; [reflexivity|]). split; [done|].
    intros idx l Hl Hid _. rewrite findIndex_None in Hfind.
    assert (loadHasId loadId l = false) as Hno.
    { apply Hfind. eapply list_elem_of_lookup_2; eauto. }
    apply String.eqb_neq in Hno. done.
Qed.

(** In the example, setting the magnitude of [P1] to 7 changes that field of
    the first load and nothing else. *)
Lemma updateLoad_frame_witness :
  exists r', updateLoad (Some Example.result) "l1" BeamLoad.k_magnitude 7%float = Some r' /\
    loads (structure r') !! 0 = Some (BeamLoad.mk "l1" POINT 10 10 7 "k" "P1" DOWN) /\
    loads (structure r') !! 1 = Some Example.w /\
    loads (structure r') !! 2 = Some Example.P0 /\
    nodes (structure r') = nodes Example.beam /\
    dimensions (structure r') = dimensions Example.beam /\
    totalLength (structure r') = totalLength Example.beam.
Proof.
  destruct (updateLoad_frame Example.result "l1" BeamLoad.k_magnitude 7%float)
    as (r' & Hr' & Htotal & Hnodes & Hdims & _ & _ & Hfound).
  exists r'. split; [exact Hr'|].
  destruct (Hfound 0 Example.P1 eq_refl eq_refl) as (_ & Hothers & l' & Hl' & _);
    [intros j l0 Hj; lia|].
  rewrite (Hothers 1), (Hothers 2) by lia.
  injection Hr' as <-. repeat split; reflexivity.
Defined.

(** * Further properties *)

(** ** Lookups by identifier across edits *)

Lemma findIndex_Forall2 {A B : Type} (p : A -> bool) (q : B -> bool) l l' :
  Forall2 (fun x y => p x = q y) l l' -> JS.findIndex p l = JS.findIndex q l'.
Proof.
  induction 1 as [|x y l l' Hxy _ IH]; simpl; [done|].
  rewrite <- Hxy. destruct (p x); [done|]. now rewrite IH.
Qed.

Lemma findIndex_insert_same {A : Type} (p : A -> bool) l i x y :
  l !! i = Some x -> p y = p x ->
  JS.findIndex p (<[i:=y]> l) = JS.findIndex p l.
Proof.
  intros Hx Hp. apply findIndex_Forall2.
  apply Forall2_same_length_lookup_2; [now rewrite length_insert|].
  intros j a b Ha Hb. destruct (decide (j = i)) as [->|Hne].
  - rewrite list_lookup_insert_eq in Ha by (eapply lookup_lt_Some; eauto).
    congruence.
  - rewrite list_lookup_insert_ne in Ha by done. congruence.
Qed.

Lemma findIndex_found {A : Type} (p : A -> bool) l j x :
  l !! j = Some x -> p x = true ->
  exists i, JS.findIndex p l = Some i /\ i <= j.
Proof.
  intros Hx Hp. destruct (JS.findIndex p l) as [i|] eqn:Hi.
  - exists i. split; [done|].
    destruct (findIndex_Some _ _ _ Hi) as (y & _ & _ & Hfirst).
    destruct (Nat.le_gt_cases i j) as [|Hlt]; [done|].
    rewrite (Hfirst _ _ Hlt Hx) in Hp. done.
  - rewrite findIndex_None in Hi. rewrite Hi in Hp; [done|].
    eapply list_elem_of_lookup_2; eauto.
Qed.

Lemma propagate_dimensions_shape newValue dimIndex oldDim s :
  dimensions s !! dimIndex = Some oldDim ->
  Forall2 sameDimensionData (dimensions s)
    (dimensions (propagate newValue dimIndex oldDim s)).
Proof.
  intros Hold. apply Forall2_same_length_lookup_2.
  - unfold propagate; cbn [dimensions]. now rewrite length_imap, length_insert.
  - intros j d d' Hd. rewrite propagate_dimensions by done.
    destruct (decide (j = dimIndex)) as [->|Hne].
    + intros [= <-]. rewrite Hold in Hd. injection Hd as <-. easy.
    + rewrite Hd. intros [= <-]. apply stepDimension_data.
Qed.

Lemma propagate_dimension_lookup newValue dimIndex oldDim s dimId :
  dimensions s !! dimIndex = Some oldDim ->
  JS.findIndex (dimensionHasId dimId)
    (dimensions (propagate newValue dimIndex oldDim s)) =
  JS.findIndex (dimensionHasId dimId) (dimensions s).
Proof.
  intros Hold. symmetry. apply findIndex_Forall2.
  eapply Forall2_impl; [now apply propagate_dimensions_shape|].
  intros d d' (Hid & _). unfold dimensionHasId. now rewrite Hid.
Qed.

Lemma stepLoad_lookup pivotX diff loadId ls :
  JS.findIndex (loadHasId loadId) (stepLoad pivotX diff <$> ls) =
  JS.findIndex (loadHasId loadId) ls.
Proof.
  symmetry. apply findIndex_Forall2, Forall2_fmap_r, Forall_Forall2_diag, Forall_forall.
  intros l _. destruct (stepLoad_data pivotX diff l) as (Hid & _).
  unfold compose, loadHasId. now rewrite Hid.
Qed.

(** X1: an edit of a dimension keeps every lookup by identifier: whatever
    the edit, [findIndex] by a dimension id or by a load id answers on the
    result what it answered before. *)
Theorem updateDimension_keeps_lookups r dimId newValue :
  exists r', updateDimension (Some r) dimId newValue = Some r' /\
    (forall id, JS.findIndex (dimensionHasId id) (dimensions (structure r')) =
                JS.findIndex (dimensionHasId id) (dimensions (structure r))) /\
    (forall id, JS.findIndex (loadHasId id) (loads (structure r')) =
                JS.findIndex (loadHasId id) (loads (structure r))).
Proof.
  unfold updateDimension.
  destruct (JS.findIndex _ _) as [dimIndex|] eqn:Hindex; [|by exists r].
  destruct (findIndex_Some _ _ _ Hindex) as (oldDim & Hold & _).
  rewrite Hold. eexists. split; [reflexivity|]. cbn [structure]. split.
  - intros id. now apply propagate_dimension_lookup.
  - intros id. rewrite propagate_loads. apply stepLoad_lookup.
Qed.

Section TwoEdits.

Variables (r : AnalysisResult) (dimId : string) (v w : float).
Variables (dimIndex : nat) (oldDim : Dimension.t).
Hypothesis Hindex :
  JS.findIndex (dimensionHasId dimId) (dimensions (structure r)) = Some dimIndex.
Hypothesis HoldDim : dimensions (structure r) !! dimIndex = Some oldDim.

(** X2: of two edits of the same dimension the last one decides the
    dimension: its [start] is still the original one, [value] is the last
    value and [end] is [start] plus that, as after the last edit alone. *)
Theorem updateDimension_twice_target :
  exists r1 r2 r',
    updateDimension (Some r) dimId v = Some r1 /\
    updateDimension (Some r1) dimId w = Some r2 /\
    updateDimension (Some r) dimId w = Some r' /\
    dimensions (structure r2) !! dimIndex =
      Some (Dimension.mk (Dimension.id oldDim) (Dimension.start oldDim)
              (Dimension.start oldDim + w)%float w (Dimension.unit oldDim)
              (Dimension.symbol oldDim) (Dimension.yOffset oldDim)) /\
    dimensions (structure r2) !! dimIndex = dimensions (structure r') !! dimIndex.
Proof using Hindex HoldDim.
  pose proof (updateDimension_found r dimId v dimIndex oldDim Hindex HoldDim) as H1.
  pose proof (updateDimension_found r dimId w dimIndex oldDim Hindex HoldDim) as H'.
  set (r1 := mkResult (propagate v dimIndex oldDim (structure r)) (latexCode r)) in *.
  assert (dimensions (structure r1) !! dimIndex = Some (resized v oldDim)) as Hold1.
  { cbn [r1 structure]. rewrite propagate_dimensions by done. now rewrite decide_True. }
  assert (JS.findIndex (dimensionHasId dimId) (dimensions (structure r1))
          = Some dimIndex) as Hindex1.
  { cbn [r1 structure]. now rewrite propagate_dimension_lookup. }
  pose proof (updateDimension_found r1 dimId w dimIndex _ Hindex1 Hold1) as H2.
  eexists _, _, _. split; [exact H1|]. split; [exact H2|]. split; [exact H'|].
  cbn [structure]. rewrite !propagate_dimensions by done.
  rewrite !decide_True by done. done.
Qed.

End TwoEdits.

(** In the example, [L1] edited to 15 and then to 12. *)
Lemma updateDimension_twice_target_witness :
  exists r1 r2 r',
    updateDimension (Some Example.result) "d1" 15 = Some r1 /\
    updateDimension (Some r1) "d1" 12 = Some r2 /\
    updateDimension (Some Example.result) "d1" 12 = Some r' /\
    dimensions (structure r2) !! 0 = Some (Dimension.mk "d1" 0 12 12 "ft" "L1" None) /\
    dimensions (structure r2) !! 0 = dimensions (structure r') !! 0.
Proof.
  exact (updateDimension_twice_target Example.result "d1" 15 12 0 Example.L1
           eq_refl eq_refl).
Defined.

(** ** The algebra of load edits *)

Lemma BeamLoad_set_id k v l :
  k <> BeamLoad.k_id -> BeamLoad.id (BeamLoad.set k v l) = BeamLoad.id l.
Proof. intros Hk. now destruct k. Qed.

Lemma BeamLoad_set_set k v1 v2 l :
  BeamLoad.set k v2 (BeamLoad.set k v1 l) = BeamLoad.set k v2 l.
Proof. now destruct k. Qed.

Lemma BeamLoad_set_get k l : BeamLoad.set k (BeamLoad.get k l) l = l.
Proof. now destruct k, l. Qed.

Lemma BeamLoad_set_commute ka va kb vb l :
  ka <> kb ->
  BeamLoad.set kb vb (BeamLoad.set ka va l) = BeamLoad.set ka va (BeamLoad.set kb vb l).
Proof. intros Hk. destruct ka, kb; try reflexivity; now elim Hk. Qed.

Lemma loadHasId_set loadId k v l :
  k <> BeamLoad.k_id -> loadHasId loadId (BeamLoad.set k v l) = loadHasId loadId l.
Proof. intros Hk. unfold loadHasId. now rewrite BeamLoad_set_id. Qed.

(** [updateLoad] once the load is found. *)
Lemma updateLoad_found r loadId field (value : BeamLoad.field field) idx l :
  JS.findIndex (loadHasId loadId) (loads (structure r)) = Some idx ->
  loads (structure r) !! idx = Some l ->
  updateLoad (Some r) loadId field value =
    Some (mkResult
            (mkStructure (totalLength (structure r)) (nodes (structure r))
               (<[idx := BeamLoad.set field value l]> (loads (structure r)))
               (dimensions (structure r)))
            (latexCode r)).
Proof. intros Hidx Hl. unfold updateLoad. now rewrite Hidx, Hl. Qed.

Lemma updateLoad_not_found r loadId field (value : BeamLoad.field field) :
  JS.findIndex (loadHasId loadId) (loads (structure r)) = None ->
  updateLoad (Some r) loadId field value = Some r.
Proof. intros Hidx. unfold updateLoad. now rewrite Hidx. Qed.

(** X3: of two writes to the same field, other than [id], of the same load
    the last one wins. *)
Theorem updateLoad_last_write_wins r loadId field (v1 v2 : BeamLoad.field field) :
  field <> BeamLoad.k_id ->
  updateLoad (updateLoad (Some r) loadId field v1) loadId field v2 =
  updateLoad (Some r) loadId field v2.
Proof.
  intros Hfield.
  destruct (JS.findIndex (loadHasId loadId) (loads (structure r))) as [idx|] eqn:Hidx.
  - destruct (findIndex_Some _ _ _ Hidx) as (l & Hl & _).
    rewrite (updateLoad_found _ _ _ v1 _ _ Hidx Hl), (updateLoad_found _ _ _ v2 _ _ Hidx Hl).
    apply lookup_lt_Some in Hl as Hlt.
    erewrite updateLoad_found; cbn [structure loads latexCode totalLength nodes dimensions].
    + now rewrite list_insert_insert_eq, BeamLoad_set_set.
    + rewrite (findIndex_insert_same _ _ _ l); [done..|]. now apply loadHasId_set.
    + now apply list_lookup_insert_eq.
  - rewrite !(updateLoad_not_found _ _ _ v1 Hidx).
    reflexivity.
Qed.

(** In the example, the magnitude of [P1] set to 7 and then to 9. *)
Lemma updateLoad_last_write_wins_witness :
  updateLoad (updateLoad (Some Example.result) "l1" BeamLoad.k_magnitude 7%float)
    "l1" BeamLoad.k_magnitude 9%float =
  updateLoad (Some Example.result) "l1" BeamLoad.k_magnitude 9%float.
Proof.
  apply (updateLoad_last_write_wins Example.result "l1" BeamLoad.k_magnitude).
  discriminate.
Defined.

(** X4: writing back to a load the value a field of it has changes
    nothing. *)
Theorem updateLoad_current_value r loadId field idx l :
  JS.findIndex (loadHasId loadId) (loads (structure r)) = Some idx ->
  loads (structure r) !! idx = Some l ->
  updateLoad (Some r) loadId field (BeamLoad.get field l) = Some r.
Proof.
  intros Hidx Hl. rewrite (updateLoad_found _ _ _ _ _ _ Hidx Hl).
  rewrite BeamLoad_set_get, list_insert_id by done.
  now destruct r as [[] ?].
Qed.

(** In the example, the magnitude 2 of [w] written again. *)
Lemma updateLoad_current_value_witness :
  updateLoad (Some Example.result) "l2" BeamLoad.k_magnitude 2%float = Some Example.result.
Proof.
  exact (updateLoad_current_value Example.result "l2" BeamLoad.k_magnitude 1 Example.w
           eq_refl eq_refl).
Defined.

(** X5: two load edits that do not rename commute, unless they write the
    same field of the same load. *)
Theorem updateLoad_commute r a ka (va : BeamLoad.field ka) b kb (vb : BeamLoad.field kb) :
  ka <> BeamLoad.k_id -> kb <> BeamLoad.k_id -> a <> b \/ ka <> kb ->
  updateLoad (updateLoad (Some r) a ka va) b kb vb =
  updateLoad (updateLoad (Some r) b kb vb) a ka va.
Proof.
  intros Hka Hkb Hdiff.
  destruct (JS.findIndex (loadHasId a) (loads (structure r))) as [ia|] eqn:Hia;
    destruct (JS.findIndex (loadHasId b) (loads (structure r))) as [ib|] eqn:Hib.
  - destruct (findIndex_Some _ _ _ Hia) as (la & Hla & Hpa & _).
    destruct (findIndex_Some _ _ _ Hib) as (lb & Hlb & Hpb & _).
    apply lookup_lt_Some in Hla as Hlta. apply lookup_lt_Some in Hlb as Hltb.
    rewrite (updateLoad_found _ _ _ va _ _ Hia Hla), (updateLoad_found _ _ _ vb _ _ Hib Hlb).
    destruct (decide (ia = ib)) as [->|Hne].
    + assert (la = lb) as -> by congruence.
      assert (ka <> kb) as Hk.
      { destruct Hdiff as [Hab|]; [|done]. exfalso. apply Hab.
        apply String.eqb_eq in Hpa, Hpb. congruence. }
      erewrite !updateLoad_found;
        cbn [structure loads latexCode totalLength nodes dimensions];
        try (now apply list_lookup_insert_eq);
        try (rewrite (findIndex_insert_same _ _ _ lb); [done..|];
             now apply loadHasId_set).
      now rewrite !list_insert_insert_eq, (BeamLoad_set_commute ka va kb vb).
    + erewrite !updateLoad_found;
        cbn [structure loads latexCode totalLength nodes dimensions];
        try (rewrite list_lookup_insert_ne by done; eassumption);
        try (erewrite findIndex_insert_same; [eassumption..|];
             now apply loadHasId_set).
      now rewrite list_insert_insert_ne.
  - destruct (findIndex_Some _ _ _ Hia) as (la & Hla & _).
    rewrite (updateLoad_found _ _ _ va _ _ Hia Hla), (updateLoad_not_found _ _ _ vb Hib).
    rewrite (updateLoad_found _ _ _ va _ _ Hia Hla).
    apply updateLoad_not_found. cbn [structure loads].
    rewrite (findIndex_insert_same _ _ _ la); [done..|]. now apply loadHasId_set.
  - destruct (findIndex_Some _ _ _ Hib) as (lb & Hlb & _).
    rewrite (updateLoad_found _ _ _ vb _ _ Hib Hlb), (updateLoad_not_found _ _ _ va Hia).
    rewrite (updateLoad_found _ _ _ vb _ _ Hib Hlb).
    symmetry. apply updateLoad_not_found. cbn [structure loads].
    rewrite (findIndex_insert_same _ _ _ lb); [done..|]. now apply loadHasId_set.
  - rewrite (updateLoad_not_found _ _ _ va Hia), (updateLoad_not_found _ _ _ vb Hib).
    now rewrite (updateLoad_not_found _ _ _ va Hia).
Qed.

(** In the example, the magnitude of [P1] and the direction of [w]. *)
Lemma updateLoad_commute_witness :
  updateLoad (updateLoad (Some Example.result) "l1" BeamLoad.k_magnitude 7%float)
    "l2" BeamLoad.k_direction UP =
  updateLoad (updateLoad (Some Example.result) "l2" BeamLoad.k_direction UP)
    "l1" BeamLoad.k_magnitude 7%float.
Proof.
  apply (updateLoad_commute Example.result "l1" BeamLoad.k_magnitude 7%float
           "l2" BeamLoad.k_direction UP); [discriminate|discriminate|].
  right. discriminate.
Defined.

(** ** Load edits and dimension edits *)

Lemma stepLoad_set pivotX diff k v l :
  k <> BeamLoad.k_id -> k <> BeamLoad.k_start -> k <> BeamLoad.k_end ->
  stepLoad pivotX diff (BeamLoad.set k v l) = BeamLoad.set k v (stepLoad pivotX diff l).
Proof.
  intros Hid Hstart Hend. unfold stepLoad.
  destruct k; try done; cbn;
    repeat match goal with
           | |- context [if ?b then _ else _] => destruct b
           end; reflexivity.
Qed.

(** X6: an edit of a load field other than [id], [start] and [end] commutes
    with an edit of a dimension. *)
Theorem updateLoad_updateDimension_commute
    r loadId field (value : BeamLoad.field field) dimId newValue :
  field <> BeamLoad.k_id -> field <> BeamLoad.k_start -> field <> BeamLoad.k_end ->
  updateDimension (updateLoad (Some r) loadId field value) dimId newValue =
  updateLoad (updateDimension (Some r) dimId newValue) loadId field value.
Proof.
  intros Hid Hstart Hend.
  destruct (JS.findIndex (dimensionHasId dimId) (dimensions (structure r)))
    as [dimIndex|] eqn:Hindex.
  2:{ assert (forall r0, dimensions (structure r0) = dimensions (structure r) ->
                updateDimension (Some r0) dimId newValue = Some r0) as Hnone.
      { intros r0 Hr0. unfold updateDimension. now rewrite Hr0, Hindex. }
      rewrite (Hnone r eq_refl).
      destruct (JS.findIndex (loadHasId loadId) (loads (structure r))) as [idx|] eqn:Hidx.
      - destruct (findIndex_Some _ _ _ Hidx) as (l & Hl & _).
        rewrite (updateLoad_found _ _ _ value _ _ Hidx Hl). now apply Hnone.
      - rewrite (updateLoad_not_found _ _ _ value Hidx). now apply Hnone. }
  destruct (findIndex_Some _ _ _ Hindex) as (oldDim & Hold & _).
  rewrite (updateDimension_found r dimId newValue dimIndex oldDim Hindex Hold).
  destruct (JS.findIndex (loadHasId loadId) (loads (structure r))) as [idx|] eqn:Hidx.
  - destruct (findIndex_Some _ _ _ Hidx) as (l & Hl & _).
    rewrite (updateLoad_found _ _ _ value _ _ Hidx Hl).
    erewrite updateDimension_found; [|exact Hindex|exact Hold].
    erewrite updateLoad_found; cbn [structure latexCode].
    + unfold propagate. cbn [loads nodes dimensions totalLength].
      now rewrite list_fmap_insert, stepLoad_set.
    + rewrite propagate_loads, stepLoad_lookup. exact Hidx.
    + rewrite propagate_loads, list_lookup_fmap, Hl. reflexivity.
  - rewrite (updateLoad_not_found _ _ _ value Hidx).
    rewrite (updateDimension_found r dimId newValue dimIndex oldDim Hindex Hold).
    symmetry. apply updateLoad_not_found. cbn [structure].
    now rewrite propagate_loads, stepLoad_lookup.
Qed.

(** In the example, the magnitude of [P1] and the length of [L1]. *)
Lemma updateLoad_updateDimension_commute_witness :
  updateDimension (updateLoad (Some Example.result) "l1" BeamLoad.k_magnitude 7%float)
    "d1" 15 =
  updateLoad (updateDimension (Some Example.result) "d1" 15) "l1" BeamLoad.k_magnitude 7%float.
Proof.
  apply (updateLoad_updateDimension_commute Example.result "l1" BeamLoad.k_magnitude
           7%float "d1" 15); discriminate.
Defined.

(** ** The parameter inputs *)

Lemma orZero_number x : is_nan (orZero x) = false.
Proof.
  unfold orZero. destruct (is_nan x) eqn:Hx; simpl; [reflexivity|].
  now destruct (x =? 0)%float.
Qed.

Lemma orZero_not_neg_zero x : orZero x <> neg_zero.
Proof.
  unfold orZero. destruct (is_nan x || (x =? 0)%float) eqn:Hx.
  - intros H. apply (f_equal JS.is_neg_zero) in H. discriminate H.
  - apply orb_false_iff in Hx as [_ Hx]. intros ->. discriminate Hx.
Qed.

(** X7: the input of the [j]-th dimension edits the first dimension that
    carries the identifier of the [j]-th, which is the [j]-th itself exactly
    when no earlier dimension has that identifier; the value it stores is
    [parsed || 0], never NaN and never [-0]. *)
Theorem dimensionInputChange_edits_first r j dim parsed :
  dimensions (structure r) !! j = Some dim ->
  exists i old d r',
    JS.findIndex (dimensionHasId (Dimension.id dim)) (dimensions (structure r)) = Some i /\
    i <= j /\
    (i = j <-> forall k dk, k < j -> dimensions (structure r) !! k = Some dk ->
                            Dimension.id dk <> Dimension.id dim) /\
    dimensionInputChange (Some r) j parsed = Some r' /\
    dimensions (structure r) !! i = Some old /\
    dimensions (structure r') !! i = Some d /\
    Dimension.value d = orZero parsed /\
    Dimension.end_ d = (Dimension.start old + orZero parsed)%float /\
    is_nan (Dimension.value d) = false /\ Dimension.value d <> neg_zero.
Proof.
  intros Hdim.
  destruct (findIndex_found (dimensionHasId (Dimension.id dim)) _ _ _ Hdim)
    as (i & Hi & Hle); [apply String.eqb_refl|].
  destruct (findIndex_Some _ _ _ Hi) as (old & Hold & Hp & Hfirst).
  exists i, old, (resized (orZero parsed) old),
    (mkResult (propagate (orZero parsed) i old (structure r)) (latexCode r)).
  split; [done|]. split; [done|]. split; [|split; [|split; [done|split]]].
  - split.
    + intros -> k dk Hk Hdk. apply String.eqb_neq. exact (Hfirst k dk Hk Hdk).
    + intros Hnone. destruct (decide (i = j)) as [|Hne]; [done|]. exfalso.
      apply (Hnone i old); [lia|done|]. now apply String.eqb_eq.
  - unfold dimensionInputChange. rewrite Hdim.
    now apply updateDimension_found.
  - cbn [structure]. rewrite propagate_dimensions by done. now rewrite decide_True.
  - cbn [resized Dimension.value Dimension.end_].
    split; [done|]. split; [done|].
    split; [apply orZero_number|apply orZero_not_neg_zero].
Qed.

(** In the example, the input of [L2] emptied: [parseFloat] gives NaN. *)
Lemma dimensionInputChange_edits_first_witness :
  exists r',
    dimensionInputChange (Some Example.result) 1 nan = Some r' /\
    dimensions (structure r') !! 1 = Some (Dimension.mk "d2" 10 10 0 "ft" "L2" None).
Proof.
  destruct (dimensionInputChange_edits_first Example.result 1 Example.L2 nan eq_refl)
    as (i & old & d & r' & Hi & _ & _ & Hr' & _).
  exists r'. split; [exact Hr'|].
  injection Hr' as <-. reflexivity.
Defined.

(** X8: the input of the [j]-th load writes [parsed || 0], never NaN, to the
    magnitude of the first load carrying the identifier of the [j]-th, and
    leaves the geometry alone. *)
Theorem loadInputChange_edits_first r j load parsed :
  loads (structure r) !! j = Some load ->
  exists i old r',
    JS.findIndex (loadHasId (BeamLoad.id load)) (loads (structure r)) = Some i /\
    i <= j /\
    loadInputChange (Some r) j parsed = Some r' /\
    loads (structure r) !! i = Some old /\
    loads (structure r') =
      <[i := BeamLoad.set BeamLoad.k_magnitude (orZero parsed) old]> (loads (structure r)) /\
    is_nan (orZero parsed) = false /\
    nodes (structure r') = nodes (structure r) /\
    dimensions (structure r') = dimensions (structure r) /\
    totalLength (structure r') = totalLength (structure r).
Proof.
  intros Hload.
  destruct (findIndex_found (loadHasId (BeamLoad.id load)) _ _ _ Hload)
    as (i & Hi & Hle); [apply String.eqb_refl|].
  destruct (findIndex_Some _ _ _ Hi) as (old & Hold & _).
  eexists i, old, _. split; [done|]. split; [done|]. split.
  { unfold loadInputChange. rewrite Hload.
    exact (updateLoad_found r _ BeamLoad.k_magnitude (orZero parsed) i old Hi Hold). }
  cbn [structure loads nodes dimensions totalLength].
  repeat split; try done. apply orZero_number.
Qed.

(** In the example, 7.5 typed into the input of [P0]. *)
Lemma loadInputChange_edits_first_witness :
  exists r',
    loadInputChange (Some Example.result) 2 7.5 = Some r' /\
    loads (structure r') =
      [Example.P1; Example.w; BeamLoad.mk "l3" POINT 4 4 7.5 "k" "P0" UP].
Proof.
  destruct (loadInputChange_edits_first Example.result 2 Example.P0 7.5 eq_refl)
    as (i & old & r' & Hi & _ & Hr' & _).
  exists r'. split; [exact Hr'|].
  injection Hr' as <-. reflexivity.
Defined.

(** ** More on Numbers: signs and NaN *)

Module Signs.

Local Open Scope Z_scope.

Lemma shr_nonneg r e n :
  0 <= shr_m r -> 0 <= shr_m (fst (shr r e n)).
Proof.
  intros Hr. destruct n as [|p|p]; simpl; try done.
  now destruct (Rounding.Shifted_iter p r Hr).
Qed.

Lemma shr_record_of_loc_m m l : shr_m (shr_record_of_loc m l) = m.
Proof. now destruct l as [|[]]. Qed.

(** [binary_round_aux] on a mantissa that is not negative gives a number of
    the sign asked for. *)
Lemma binary_round_aux_signed prec emax s mx ex lx :
  0 <= mx -> hasSign s (binary_round_aux prec emax s mx ex lx).
Proof.
  intros Hmx. unfold binary_round_aux, shr_fexp.
  pose proof (shr_nonneg (shr_record_of_loc mx lx) ex
                (SpecFloat.fexp prec emax (Zdigits2 mx + ex) - ex)) as H1.
  rewrite shr_record_of_loc_m in H1. specialize (H1 Hmx).
  destruct (shr (shr_record_of_loc mx lx) ex _) as [r1 e1]. simpl in H1.
  pose proof (Rounding.round_nearest_even_bounds r1) as [[Hlo _] _].
  set (m1 := round_nearest_even (shr_m r1) (loc_of_shr_record r1)) in *.
  pose proof (shr_nonneg (shr_record_of_loc m1 loc_Exact) e1
                (SpecFloat.fexp prec emax (Zdigits2 m1 + e1) - e1)) as H2.
  rewrite shr_record_of_loc_m in H2. specialize (H2 ltac:(lia)).
  destruct (shr (shr_record_of_loc m1 loc_Exact) e1 _) as [r2 e2]. simpl in H2.
  destruct (shr_m r2) as [|p|p]; [done| |lia].
  now destruct (e2 <=? emax - prec).
Qed.

Lemma binary_normalize_number prec emax m e sz :
  0 < prec -> binary_normalize prec emax m e sz <> S754_nan.
Proof.
  intros Hprec. destruct m as [|p|p]; simpl; [done| |].
  - pose proof (Rounding.binary_round_sign prec emax Hprec false p e).
    now destruct (binary_round prec emax false p e).
  - pose proof (Rounding.binary_round_sign prec emax Hprec true p e).
    now destruct (binary_round prec emax true p e).
Qed.

End Signs.

(** A finite Number plus a Number is a Number. *)
Lemma add_number x y :
  is_finite x = true -> is_nan y = false -> is_nan (x + y)%float = false.
Proof.
  intros Hx%FloatFacts.is_finite_spec Hy%FloatFacts.is_nan_false.
  apply FloatFacts.is_nan_false. rewrite FloatAxioms.add_spec.
  destruct (Prim2SF x) as [sx|sx| |sx mx ex], (Prim2SF y) as [sy|sy| |sy my ey];
    try done; try (now destruct sx, sy).
  now apply Signs.binary_normalize_number.
Qed.

(** The difference of a Number and a finite Number is a Number. *)
Lemma sub_number x y :
  is_nan x = false -> is_finite y = true -> is_nan (x - y)%float = false.
Proof.
  intros Hx%FloatFacts.is_nan_false Hy%FloatFacts.is_finite_spec.
  apply FloatFacts.is_nan_false. rewrite FloatAxioms.sub_spec.
  destruct (Prim2SF x) as [sx|sx| |sx mx ex], (Prim2SF y) as [sy|sy| |sy my ey];
    try done; try (now destruct sx, sy).
  now apply Signs.binary_normalize_number.
Qed.

Lemma is_finite_number x : is_finite x = true -> is_nan x = false.
Proof.
  unfold is_finite. rewrite negb_true_iff, orb_false_iff. now intros [? _].
Qed.

Lemma Math_max_number coerced :
  Forall (fun x => is_nan x = false) coerced -> is_nan (JS.Math_max coerced) = false.
Proof.
  intros Hall.
  destruct (Math_max_loop_spec coerced neg_infinity eq_refl Hall) as ([Hm|Hm] & _).
  - unfold JS.Math_max. now rewrite Hm.
  - rewrite Forall_forall in Hall. now apply Hall.
Qed.

(** ** An edit creates no NaN out of finite data *)

Lemma finiteGeometry_number s : finiteGeometry s -> numberGeometry s.
Proof.
  intros (Ht & Hn & Hl & Hd). split; [now apply is_finite_number|].
  split; [|split].
  - eapply Forall_impl; [exact Hn|]. intros n. apply is_finite_number.
  - eapply Forall_impl; [exact Hl|]. intros l [? ?]. split; now apply is_finite_number.
  - eapply Forall_impl; [exact Hd|]. intros d (? & ? & ?).
    repeat split; now apply is_finite_number.
Qed.

(** X9: an edit with a finite value of a structure whose coordinates are
    all finite leaves no NaN in the result: not in [totalLength], not in a
    position, a [start], an [end] or a [value]. *)
Theorem updateDimension_creates_no_NaN r dimId newValue :
  finiteGeometry (structure r) -> is_finite newValue = true ->
  exists r', updateDimension (Some r) dimId newValue = Some r' /\
    numberGeometry (structure r').
Proof.
  intros Hfinite Hnew. unfold updateDimension.
  destruct (JS.findIndex _ _) as [dimIndex|] eqn:Hindex.
  2:{ exists r. split; [done|]. now apply finiteGeometry_number. }
  destruct (findIndex_Some _ _ _ Hindex) as (oldDim & Hold & _).
  rewrite Hold. eexists. split; [reflexivity|]. cbn [structure].
  destruct Hfinite as (_ & Hn & Hl & Hd).
  rewrite Forall_forall in Hn. rewrite Forall_forall in Hl.
  rewrite Forall_forall in Hd.
  destruct (Hd oldDim) as (Hstart & _ & Hvalue); [eapply list_elem_of_lookup_2; eauto|].
  set (diff := (newValue - Dimension.value oldDim)%float).
  assert (is_nan diff = false) as Hdiff
    by (apply sub_number; [now apply is_finite_number|done]).
  assert (Forall (fun n => is_nan (BeamNode.position n) = false)
            (nodes (propagate newValue dimIndex oldDim (structure r)))) as Hnodes.
  { rewrite propagate_nodes. apply Forall_fmap, Forall_forall. intros n Hin.
    unfold compose, stepNode. destruct (_ >=? _)%float; cbn.
    - apply add_number; auto.
    - apply is_finite_number; auto. }
  split; [|split; [done|split]].
  - rewrite propagate_totalLength. apply Math_max_number. now apply Forall_fmap.
  - rewrite propagate_loads. apply Forall_fmap, Forall_forall. intros l Hin.
    destruct (Hl l Hin) as [Hs He].
    unfold compose. rewrite stepLoad_loadRule. unfold loadRule.
    destruct (_ >=? _)%float; cbn; [split; now apply add_number|].
    destruct (_ && _); cbn; split;
      try (now apply add_number); now apply is_finite_number.
  - apply Forall_lookup_2. intros j d' Hd'.
    rewrite propagate_dimensions in Hd' by done.
    destruct (decide (j = dimIndex)) as [->|Hne].
    + injection Hd' as <-. cbn.
      repeat split; [now apply is_finite_number| |now apply is_finite_number].
      apply add_number; [done|now apply is_finite_number].
    + destruct (dimensions (structure r) !! j) as [d|] eqn:Hj; [|done].
      injection Hd' as <-.
      destruct (Hd d) as (Hs & He & Hv); [eapply list_elem_of_lookup_2; eauto|].
      unfold stepDimension. destruct (_ && _); cbn;
        repeat split; try (now apply add_number); now apply is_finite_number.
Qed.

Lemma Example_finiteGeometry : finiteGeometry Example.beam.
Proof.
  repeat split; repeat (apply List.Forall_cons; [try (repeat split)|]);
    try apply List.Forall_nil; reflexivity.
Qed.

(** In the example, [L1] edited to 15. *)
Lemma updateDimension_creates_no_NaN_witness :
  finiteGeometry (structure Example.result) /\
  exists r', updateDimension (Some Example.result) "d1" 15 = Some r' /\
    numberGeometry (structure r').
Proof.
  split; [exact Example_finiteGeometry|].
  apply (updateDimension_creates_no_NaN Example.result "d1" 15);
    [exact Example_finiteGeometry|reflexivity].
Defined.

(** ** The scale of the diagram *)

Lemma ltb_zero_positive x :
  (0 <? x)%float = true ->
  match Prim2SF x with
  | S754_infinity false | S754_finite false _ _ => True
  | _ => False
  end.
Proof.
  rewrite FloatAxioms.ltb_spec. change (Prim2SF 0) with (S754_zero false).
  unfold SFltb. now destruct (Prim2SF x) as [[]|[]| |[] ? ?].
Qed.

Lemma SFdiv_positive prec emax mx ex y :
  match y with
  | S754_infinity false | S754_finite false _ _ => True
  | _ => False
  end ->
  hasSign false (SFdiv prec emax (S754_finite false mx ex) y).
Proof.
  destruct y as [|[]| |[] my ey]; try done. intros _. simpl.
  unfold SFdiv_core_binary.
  set (m' := match (ex - ey - _)%Z with Z.pos _ => _ | _ => _ end).
  assert (0 <= m')%Z as Hm'.
  { unfold m'. destruct (_ - _ - _)%Z; try lia. apply Z.shiftl_nonneg. lia. }
  destruct (Z.div_eucl m' (Z.pos my)) as [q rem] eqn:Hq.
  apply Signs.binary_round_aux_signed.
  assert (q = (m' / Z.pos my)%Z) as -> by (unfold Z.div; now rewrite Hq).
  apply Z.div_pos; lia.
Qed.

Lemma scale_signed data : hasSign false (Prim2SF (Visualizer.scale data)).
Proof.
  unfold Visualizer.scale.
  destruct (0 <? totalLength data)%float eqn:Hpos; [|done].
  rewrite FloatAxioms.div_spec.
  change (Prim2SF (800 - Visualizer.PADDING_X * 2))
    with (S754_finite false 5981343255101440 (-43)).
  now apply SFdiv_positive, ltb_zero_positive.
Qed.

(** X10: whatever the total length, the scale is never NaN and never
    negative. *)
Theorem scale_nonnegative data : (0 <=? Visualizer.scale data)%float = true.
Proof.
  rewrite FloatAxioms.leb_spec. change (Prim2SF 0) with (S754_zero false).
  pose proof (scale_signed data) as H.
  destruct (Prim2SF (Visualizer.scale data)) as [s|s| |s ? ?]; try done;
    simpl in H; now subst s.
Qed.

Lemma is_finite_signed x :
  hasSign false (Prim2SF x) ->
  is_finite x = match Prim2SF x with S754_infinity _ => false | _ => true end.
Proof.
  intros H. unfold is_finite, is_nan, is_infinity.
  rewrite !FloatAxioms.eqb_spec, FloatAxioms.abs_spec.
  destruct (Prim2SF x) as [s|s| |s m e]; try done; simpl in H; subst s; try done.
  unfold SFeqb. simpl. rewrite Z.compare_refl.
  change (PosDef.Pos.compare_cont Eq) with Pos.compare. now rewrite Pos.compare_refl.
Qed.

(** A zero times the scale: a zero of the same sign, or NaN when the scale
    is infinite. *)
Lemma zero_times_scale data (s : bool) z :
  Prim2SF z = S754_zero s ->
  Prim2SF (z * Visualizer.scale data)%float =
    if is_finite (Visualizer.scale data) then S754_zero s else S754_nan.
Proof.
  intros Hz. rewrite FloatAxioms.mul_spec, Hz.
  pose proof (scale_signed data) as H. rewrite (is_finite_signed _ H).
  destruct (Prim2SF (Visualizer.scale data)) as [s'|s'| |s' ? ?]; try done;
    simpl in H; subst s'; simpl; now destruct s.
Qed.

Lemma getX_zero data (s : bool) z :
  Prim2SF z = S754_zero s ->
  Visualizer.getX data z =
    if is_finite (Visualizer.scale data) then Visualizer.PADDING_X else nan.
Proof.
  intros Hz. apply Prim2SF_inj. unfold Visualizer.getX.
  rewrite FloatAxioms.add_spec, (zero_times_scale data s z Hz).
  now destruct (is_finite (Visualizer.scale data)).
Qed.

(** X11: the origin of the beam is drawn at the left padding, 60, unless
    the scale is infinite, where its abscissa is NaN. *)
Theorem getX_origin data :
  Visualizer.getX data 0 =
    if is_finite (Visualizer.scale data) then Visualizer.PADDING_X else nan.
Proof.
  apply Prim2SF_inj. unfold Visualizer.getX.
  rewrite FloatAxioms.add_spec, (zero_times_scale data false 0 eq_refl).
  destruct (is_finite (Visualizer.scale data)); reflexivity.
Qed.

(** ** Dimension marks *)

Lemma renderDimension_hidden data dim :
  Visualizer.getX data (Dimension.end_ dim) = Visualizer.getX data (Dimension.start dim) ->
  is_finite (Visualizer.getX data (Dimension.start dim)) = true ->
  Visualizer.renderDimension data dim = None.
Proof.
  intros Heq Hfin. unfold Visualizer.renderDimension.
  now rewrite Heq, FloatFacts.sub_diag.
Qed.

(** Adding [+0] to a position does not move its abscissa while that is
    finite. *)
Lemma getX_add_zero data x :
  is_finite (Visualizer.getX data x) = true ->
  Visualizer.getX data (x + 0) = Visualizer.getX data x.
Proof.
  intros Hfin. destruct (PrimFloat.Leibniz.eqb x neg_zero) eqn:Hx.
  - apply FloatAxioms.Leibniz.eqb_spec in Hx. subst x.
    rewrite (getX_zero data true neg_zero eq_refl) in *.
    change (neg_zero + 0)%float with 0%float.
    now rewrite (getX_zero data false 0 eq_refl).
  - rewrite FloatFacts.add_zero_r; [done|].
    intros ->. discriminate Hx.
Qed.

(** X13: every mark is drawn at a height that is not NaN, whatever
    [yOffset] holds, and at 200 when the dimension has no [yOffset]. *)
Theorem renderDimension_height data dim mark :
  Visualizer.renderDimension data dim = Some mark ->
  is_nan (Visualizer.y mark) = false /\
  (Dimension.yOffset dim = None -> Visualizer.y mark = 200%float).
Proof.
  unfold Visualizer.renderDimension.
  destruct (abs _ <? 1)%float; [done|]. intros [= <-]. cbn. split.
  - apply add_number; [reflexivity|].
    destruct (Dimension.yOffset dim); [apply orZero_number|reflexivity].
  - now intros ->.
Qed.

(** The mark of [L1] in the example. *)
Lemma renderDimension_height_witness :
  exists mark, Visualizer.renderDimension Example.beam Example.L1 = Some mark /\
    is_nan (Visualizer.y mark) = false /\ Visualizer.y mark = 200%float.
Proof.
  eexists. split; [reflexivity|].
  destruct (renderDimension_height Example.beam Example.L1 _ eq_refl) as [Hy H200].
  split; [exact Hy|exact (H200 eq_refl)].
Defined.

Lemma is_finite_decoded x :
  is_finite x =
    match Prim2SF x with
    | S754_zero _ | S754_finite _ _ _ => true
    | _ => false
    end.
Proof.
  unfold is_finite, is_nan, is_infinity.
  rewrite !FloatAxioms.eqb_spec, FloatAxioms.abs_spec.
  change (Prim2SF infinity) with (S754_infinity false).
  destruct (Prim2SF x) as [s|s| |s m e];
    [now destruct s|now destruct s|reflexivity|].
  unfold SFeqb. rewrite FloatFacts.SFcompare_refl by done. reflexivity.
Qed.

Lemma sub_diag_not_finite x : is_finite x = false -> is_nan (x - x)%float = true.
Proof.
  rewrite is_finite_decoded. intros Hx.
  apply FloatFacts.is_nan_spec. rewrite FloatAxioms.sub_spec.
  destruct (Prim2SF x) as [s|s| |s m e]; try done. now destruct s.
Qed.

Lemma renderDimension_shown data dim :
  Visualizer.getX data (Dimension.end_ dim) = Visualizer.getX data (Dimension.start dim) ->
  is_finite (Visualizer.getX data (Dimension.start dim)) = false ->
  exists mark, Visualizer.renderDimension data dim = Some mark /\
    is_nan (Visualizer.x2 mark - Visualizer.x1 mark)%float = true.
Proof.
  intros Heq Hfin. unfold Visualizer.renderDimension. rewrite Heq.
  pose proof (sub_diag_not_finite _ Hfin) as Hnan.
  apply FloatFacts.is_nan_spec in Hnan as Hsf.
  assert ((abs (Visualizer.getX data (Dimension.start dim)
                - Visualizer.getX data (Dimension.start dim)) <? 1)%float = false) as ->.
  { rewrite FloatAxioms.ltb_spec, FloatAxioms.abs_spec, Hsf. reflexivity. }
  eexists. split; [reflexivity|]. exact Hnan.
Qed.

(** X12: a dimension whose [start] and [end] coincide gets no mark exactly
    when its abscissa is finite; otherwise [Math.abs(NaN) < 1] fails and a
    mark is drawn. *)
Theorem renderDimension_zero_length data dim :
  Dimension.end_ dim = Dimension.start dim ->
  Visualizer.renderDimension data dim = None <->
  is_finite (Visualizer.getX data (Dimension.start dim)) = true.
Proof.
  intros Heq. split.
  - intros Hnone.
    destruct (is_finite (Visualizer.getX data (Dimension.start dim))) eqn:Hfin; [done|].
    destruct (renderDimension_shown data dim) as (mark & Hmark & _);
      [now rewrite Heq|done|congruence].
  - apply renderDimension_hidden. now rewrite Heq.
Qed.

(** A dimension from 10 to 10 on the example beam. *)
Lemma renderDimension_zero_length_witness :
  Visualizer.renderDimension Example.beam (Dimension.mk "d0" 10 10 0 "ft" "L0" None) = None.
Proof.
  apply (renderDimension_zero_length Example.beam
           (Dimension.mk "d0" 10 10 0 "ft" "L0" None)); reflexivity.
Defined.

Section InputToMark.

Variables (r : AnalysisResult) (j : nat) (dim : Dimension.t) (parsed : float).
Hypothesis Hdim : dimensions (structure r) !! j = Some dim.
Hypothesis Hparsed : is_nan parsed || (parsed =? 0)%float = true.

(** X14: an input that is emptied, unreadable or zero sets the dimension
    to the length 0, and the diagram of the result draws no mark for it
    (as long as its abscissa is finite). *)
Theorem dimensionInputChange_zero_hides :
  exists i d r',
    JS.findIndex (dimensionHasId (Dimension.id dim)) (dimensions (structure r)) = Some i /\
    dimensionInputChange (Some r) j parsed = Some r' /\
    dimensions (structure r') !! i = Some d /\
    Dimension.value d = 0%float /\
    (is_finite (Visualizer.getX (structure r') (Dimension.start d)) = true ->
     Visualizer.renderDimensions (structure r') !! i = Some None).
Proof using Hdim Hparsed.
  destruct (findIndex_found (dimensionHasId (Dimension.id dim)) _ _ _ Hdim)
    as (i & Hi & Hle); [apply String.eqb_refl|].
  destruct (findIndex_Some _ _ _ Hi) as (old & Hold & _).
  assert (orZero parsed = 0%float) as Hzero by (unfold orZero; now rewrite Hparsed).
  exists i, (resized 0 old),
    (mkResult (propagate 0 i old (structure r)) (latexCode r)).
  split; [done|]. split; [|split; [|split; [done|]]].
  - unfold dimensionInputChange. rewrite Hdim, Hzero.
    now apply updateDimension_found.
  - cbn [structure]. rewrite propagate_dimensions by done. now rewrite decide_True.
  - cbn [structure resized Dimension.start]. intros Hfin.
    unfold Visualizer.renderDimensions. rewrite list_lookup_fmap.
    rewrite propagate_dimensions by done. rewrite decide_True by done. cbn.
    f_equal. apply renderDimension_hidden; [|done].
    cbn [resized Dimension.start Dimension.end_]. now apply getX_add_zero.
Qed.

End InputToMark.

(** In the example, the input of [L2] emptied. *)
Lemma dimensionInputChange_zero_hides_witness :
  exists r',
    dimensionInputChange (Some Example.result) 1 nan = Some r' /\
    Visualizer.renderDimensions (structure r') !! 1 = Some None.
Proof.
  destruct (dimensionInputChange_zero_hides Example.result 1 Example.L2 nan
              eq_refl eq_refl) as (i & d & r' & Hi & Hr' & Hd & _ & Hhidden).
  exists r'. split; [exact Hr'|].
  injection Hi as <-. injection Hr' as <-. injection Hd as <-.
  apply Hhidden. reflexivity.
Defined.

Section NoNodes.

Variables (r : AnalysisResult) (dimId : string) (newValue : float) (dimIndex : nat).
Hypothesis Hindex :
  JS.findIndex (dimensionHasId dimId) (dimensions (structure r)) = Some dimIndex.
Hypothesis Hnodes : nodes (structure r) = [].

(** X15: after an edit of a structure without nodes the diagram falls back
    to the scale 1, and the beam line runs from 60 to [-Infinity]. *)
Theorem visualizer_after_edit_without_nodes :
  exists r', updateDimension (Some r) dimId newValue = Some r' /\
    Visualizer.scale (structure r') = 1%float /\
    Visualizer.getX (structure r') 0 = 60%float /\
    Visualizer.getX (structure r') (totalLength (structure r')) = neg_infinity.
Proof using Hindex Hnodes.
  destruct (findIndex_Some _ _ _ Hindex) as (oldDim & Hold & _).
  eexists. split; [exact (updateDimension_found _ _ _ _ _ Hindex Hold)|].
  cbn [structure]. unfold Visualizer.getX, Visualizer.scale.
  rewrite propagate_totalLength, propagate_nodes, Hnodes. repeat split; reflexivity.
Qed.

End NoNodes.

(** A beam of length 10 with the dimension [L1] and no node. *)
Lemma visualizer_after_edit_without_nodes_witness :
  exists r',
    updateDimension (Some (mkResult (mkStructure 10 [] [] [Example.L1]) Example.tikz))
      "d1" 12 = Some r' /\
    Visualizer.scale (structure r') = 1%float /\
    Visualizer.getX (structure r') 0 = 60%float /\
    Visualizer.getX (structure r') (totalLength (structure r')) = neg_infinity.
Proof.
  exact (visualizer_after_edit_without_nodes
           (mkResult (mkStructure 10 [] [] [Example.L1]) Example.tikz) "d1" 12 0
           eq_refl eq_refl).
Defined.

(** ** The report text *)

Lemma startsWith_spec pat s :
  JSString.startsWith pat s = true <-> exists after, s = pat ++ after.
Proof.
  revert s. induction pat as [|p pat IH]; intros s.
  - simpl. split; [eauto|done].
  - destruct s as [|c s]; simpl.
    { split; [done|]. intros [after Heq]. discriminate Heq. }
    destruct (N.eqb_spec p c) as [Heq|Hne].
    + subst c. rewrite IH. split.
      * intros [after ->]. now exists after.
      * intros [after Heq]. injection Heq as ->. now exists after.
    + split; [done|]. intros [after Heq]. injection Heq as ? ?. done.
Qed.

Lemma startsWith_cons p pat c s :
  JSString.startsWith (p :: pat) (c :: s) =
    if N.eqb p c then JSString.startsWith pat s else false.
Proof. reflexivity. Qed.

Lemma occursIn_cons pat c s :
  occursIn pat (c :: s) -> JSString.startsWith pat (c :: s) = true \/ occursIn pat s.
Proof.
  intros ([|b before] & after & Heq).
  - left. apply startsWith_spec. eauto.
  - right. injection Heq as -> ->. now exists before, after.
Qed.

Lemma occursInb_spec pat s : occursInb pat s = true <-> occursIn pat s.
Proof.
  induction s as [|c s IH]; simpl.
  - rewrite startsWith_spec. split.
    + intros [after Heq]. now exists [], after.
    + intros (before & after & Heq). symmetry in Heq.
      apply app_eq_nil in Heq as [_ Heq]. apply app_eq_nil in Heq as [-> _].
      now exists [].
  - rewrite orb_true_iff, IH. split.
    + intros [Hstart|(before & after & ->)].
      * apply startsWith_spec in Hstart as [after ->]. now exists [], after.
      * now exists (c :: before), after.
    + intros [Hstart|Hocc]%occursIn_cons; [now left|now right].
Qed.

Lemma removeAllFrom_skip pat k s :
  JSString.removeAllFrom pat k s = JSString.removeAll pat (drop k s).
Proof.
  revert s. induction k as [|k IH]; intros s; [now rewrite drop_0|].
  destruct s as [|c s]; [done|]. simpl. apply IH.
Qed.

(** One step of the replacement: a match is dropped whole, anything else
    keeps its first code unit. *)
Lemma removeAll_step pat c s :
  pat <> [] ->
  JSString.removeAll pat (c :: s) =
    if JSString.startsWith pat (c :: s)
    then JSString.removeAll pat (drop (length pat) (c :: s))
    else c :: JSString.removeAll pat s.
Proof.
  intros Hpat. unfold JSString.removeAll at 1. simpl JSString.removeAllFrom.
  destruct (JSString.startsWith pat (c :: s)); [|done].
  rewrite removeAllFrom_skip. destruct pat; [done|]. simpl. now rewrite Nat.sub_0_r.
Qed.

(** A text in which the pattern does not occur is left as it is. *)
Lemma removeAll_absent pat s :
  pat <> [] -> ~ occursIn pat s -> JSString.removeAll pat s = s.
Proof.
  intros Hpat. induction s as [|c s IH]; intros Hno; [done|].
  rewrite removeAll_step by done.
  destruct (JSString.startsWith pat (c :: s)) eqn:Hstart.
  - exfalso. apply Hno. apply startsWith_spec in Hstart as [after ->].
    now exists [], after.
  - f_equal. apply IH. intros (before & after & ->). apply Hno.
    now exists (c :: before), after.
Qed.

Lemma fence_units : fence = [96; 96; 96]%N.
Proof. reflexivity. Qed.

(** What is left after the fences are removed does not begin with one. *)
Lemma removeAll_fence_start n : forall s, length s <= n ->
  JSString.startsWith fence (JSString.removeAll fence s) = false.
Proof.
  induction n as [|n IH]; intros s Hlen.
  { destruct s; [done|simpl in Hlen; lia]. }
  destruct s as [|c s]; [done|]. rewrite removeAll_step by done.
  destruct (JSString.startsWith fence (c :: s)) eqn:Hstart.
  { apply IH. rewrite length_drop. simpl in *. lia. }
  rewrite fence_units in *.
  destruct (N.eqb_spec 96 c) as [<-|Hc]; [|rewrite startsWith_cons; now rewrite (proj2 (N.eqb_neq 96 c))].
  destruct s as [|d s]; [done|]. rewrite removeAll_step by done.
  destruct (JSString.startsWith [96; 96; 96]%N (d :: s)) eqn:Hstart2.
  - apply startsWith_spec in Hstart2 as [after Heq]. injection Heq as -> ->.
    simpl in Hstart. done.
  - destruct (N.eqb_spec 96 d) as [<-|Hd];
      [|rewrite !startsWith_cons, N.eqb_refl; now rewrite (proj2 (N.eqb_neq 96 d))].
    destruct s as [|e s]; [done|]. rewrite removeAll_step by done.
    destruct (JSString.startsWith [96; 96; 96]%N (e :: s)) eqn:Hstart3.
    + apply startsWith_spec in Hstart3 as [after Heq]. injection Heq as -> ->.
      simpl in Hstart. done.
    + destruct (N.eqb_spec 96 e) as [<-|He]; [simpl in Hstart; done|].
      rewrite !startsWith_cons, !N.eqb_refl. now rewrite (proj2 (N.eqb_neq 96 e)).
Qed.

Lemma removeAll_fence_free n : forall s, length s <= n ->
  ~ occursIn fence (JSString.removeAll fence s).
Proof.
  induction n as [|n IH]; intros s Hlen.
  { destruct s; [|simpl in Hlen; lia]. intros ([|? ?] & ? & [=]). }
  destruct s as [|c s]; [intros ([|? ?] & ? & [=])|].
  pose proof (removeAll_fence_start (S n) (c :: s) Hlen) as Hstart.
  rewrite removeAll_step in * by done.
  destruct (JSString.startsWith fence (c :: s)).
  - apply IH. rewrite length_drop. simpl in *. lia.
  - intros [Hocc|Hocc]%occursIn_cons; [congruence|].
    revert Hocc. apply IH. simpl in Hlen. lia.
Qed.

(** X16: no fence is left in the text shown, which therefore is shown again
    unchanged. *)
Theorem shownReport_no_fence report :
  ~ occursIn fence (shownReport report) /\
  shownReport (shownReport report) = shownReport report.
Proof.
  assert (~ occursIn fence (shownReport report)) as Hfree
    by (unfold shownReport; eapply removeAll_fence_free; reflexivity).
  split; [exact Hfree|].
  unfold shownReport at 1.
  rewrite (removeAll_absent (JSString.lit "```markdown")); [|done|].
  - now apply removeAll_absent.
  - intros (before & after & Heq). apply Hfree.
    exists before, (JSString.lit "markdown" ++ after). rewrite Heq. reflexivity.
Qed.

(** X17: a report without a fence is shown as it is. *)
Theorem shownReport_verbatim report :
  ~ occursIn fence report -> shownReport report = report.
Proof.
  intros Hfree. unfold shownReport.
  rewrite (removeAll_absent (JSString.lit "```markdown")); [|done|].
  - now apply removeAll_absent.
  - intros (before & after & Heq). apply Hfree.
    exists before, (JSString.lit "markdown" ++ after). rewrite Heq. reflexivity.
Qed.

(** A line of a report with inline code. *)
Lemma shownReport_verbatim_witness :
  shownReport (JSString.lit "R_A = 3.5 k, `M_max` = 12 k-ft") =
  JSString.lit "R_A = 3.5 k, `M_max` = 12 k-ft".
Proof.
  apply shownReport_verbatim. intros H%occursInb_spec.
  vm_compute in H. discriminate H.
Defined.

(** A match at the head of the text is dropped. *)
Lemma removeAll_match pat s :
  pat <> [] -> JSString.removeAll pat (pat ++ s) = JSString.removeAll pat s.
Proof.
  intros Hpat. destruct pat as [|p pat]; [done|].
  change ((p :: pat) ++ s) with (p :: (pat ++ s)). rewrite removeAll_step by done.
  change (p :: (pat ++ s)) with ((p :: pat) ++ s).
  rewrite (proj2 (startsWith_spec (p :: pat) ((p :: pat) ++ s))) by eauto.
  now rewrite drop_app_length.
Qed.

(** A fence that follows a text without one is removed, and only it. *)
Lemma removeAll_fence_closing body :
  ~ occursIn fence body -> JSString.removeAll fence (body ++ fence) = body.
Proof.
  rewrite fence_units.
  induction body as [|c b IH]; intros Hfree; [reflexivity|].
  assert (~ occursIn [96; 96; 96]%N b) as Hb.
  { intros (before & after & ->). apply Hfree. now exists (c :: before), after. }
  assert (JSString.startsWith [96; 96; 96]%N (c :: b) = false) as Hstart.
  { destruct (JSString.startsWith _ _) eqn:H; [|done]. exfalso. apply Hfree.
    apply startsWith_spec in H as [after ->]. now exists [], after. }
  change ((c :: b) ++ [96; 96; 96]%N) with (c :: (b ++ [96; 96; 96]%N)).
  rewrite removeAll_step by done.
  destruct (JSString.startsWith [96; 96; 96]%N (c :: b ++ [96; 96; 96]%N)) eqn:Hlong;
    [|now rewrite IH].
  apply startsWith_spec in Hlong as [after Heq].
  injection Heq as -> Heq.
  destruct b as [|d [|e b]].
  - reflexivity.
  - injection Heq as -> _. reflexivity.
  - injection Heq as -> -> _. discriminate Hstart.
Qed.

(** A pattern made of a fence and a word that does not begin with a backquote
    does not occur in a text without a fence, closed by a fence. *)
Lemma occursIn_fence_word m word body :
  m <> 96%N -> occursIn (fence ++ m :: word) (body ++ fence) -> occursIn fence body.
Proof.
  rewrite fence_units. intros Hm.
  induction body as [|c b IH].
  - intros (before & after & Heq). apply (f_equal length) in Heq.
    rewrite !length_app in Heq. simpl in Heq. lia.
  - intros [Hstart|Hocc]%occursIn_cons.
    + apply startsWith_spec in Hstart as [after Heq]. injection Heq as -> Heq.
      destruct b as [|d [|e b]].
      * inversion Heq. congruence.
      * inversion Heq. congruence.
      * injection Heq as -> -> _. now exists [], b.
    + destruct (IH Hocc) as (before & after & ->). now exists (c :: before), after.
Qed.

(** X18: a report wrapped as a fenced markdown block is shown as its body,
    whenever the body holds no fence of its own. *)
Theorem shownReport_unwraps body :
  ~ occursIn fence body ->
  shownReport (JSString.lit "```markdown" ++ body ++ fence) = body.
Proof.
  intros Hfree. unfold shownReport.
  rewrite removeAll_match by done.
  rewrite (removeAll_absent (JSString.lit "```markdown")); [|done|].
  - now apply removeAll_fence_closing.
  - intros Hocc. apply Hfree.
    apply (occursIn_fence_word 109 (JSString.lit "arkdown")); [done|exact Hocc].
Qed.

(** A fenced report of one line, with inline code. *)
Lemma shownReport_unwraps_witness :
  shownReport (JSString.lit "```markdown# Reactions: `R_A` = 3.5 k```") =
  JSString.lit "# Reactions: `R_A` = 3.5 k".
Proof.
  apply (shownReport_unwraps (JSString.lit "# Reactions: `R_A` = 3.5 k")).
  intros H%occursInb_spec. vm_compute in H. discriminate H.
Defined.

(** ** The payload of a data URL *)

Lemma split_absent sep s : sep ∉ s -> JSString.split sep s = [s].
Proof.
  induction s as [|c s IH]; intros Hs; [done|]. simpl.
  apply not_elem_of_cons in Hs as [Hc Hs].
  rewrite (proj2 (N.eqb_neq c sep)) by done. now rewrite IH.
Qed.

Lemma split_first sep before rest :
  sep ∉ before ->
  JSString.split sep (before ++ sep :: rest) = before :: JSString.split sep rest.
Proof.
  induction before as [|c before IH]; intros Hs; simpl.
  - now rewrite N.eqb_refl.
  - apply not_elem_of_cons in Hs as [Hc Hs].
    rewrite (proj2 (N.eqb_neq c sep)) by done. now rewrite IH.
Qed.

(** X19: from a data URL [header,payload] the payload is cut out whole when it
    holds no comma, and up to its first comma otherwise; a text without a
    comma gives [undefined]. *)
Theorem base64Content_payload header payload :
  44%N ∉ header ->
  (44%N ∉ payload -> base64Content (header ++ 44%N :: payload) = Some payload) /\
  (forall rest, 44%N ∉ payload ->
     base64Content (header ++ 44%N :: payload ++ 44%N :: rest) = Some payload) /\
  base64Content header = None.
Proof.
  intros Hheader. unfold base64Content. split; [|split].
  - intros Hpayload. now rewrite split_first, split_absent.
  - intros rest Hpayload. now rewrite !split_first.
  - now rewrite split_absent.
Qed.

(** The data URL of a PNG image. *)
Lemma base64Content_payload_witness :
  base64Content (JSString.lit "data:image/png;base64,iVBORw0KGgo=") =
    Some (JSString.lit "iVBORw0KGgo=").
Proof.
  assert (44%N ∉ JSString.lit "data:image/png;base64") as Hheader
    by (apply (bool_decide_unpack _); vm_compute; exact I).
  assert (44%N ∉ JSString.lit "iVBORw0KGgo=") as Hpayload
    by (apply (bool_decide_unpack _); vm_compute; exact I).
  exact (proj1 (base64Content_payload _ _ Hheader) Hpayload).
Defined.
